(** * WebSocketResource: a lifecycle-managed wrapper around one WebSocket

    Shallow embedding of [src/web-socket-resource.ts].  The class wraps one
    browser [WebSocket]; everything it does is event registration on that
    transport, on abort signals, and a drain loop in [send].  The embedding
    keeps one [World] holding the objects the class touches (the transport,
    the caller's abort signals, the resource instance, the promise returned
    by [open], the pending [send] tasks) and writes every method as a
    computation in a state-and-exception monad over that world.  Closures
    are defunctionalised: an event listener is a tag ([Handler]) together
    with the variables it captured. *)

From Stdlib Require Import ZArith NArith List Bool String Lia.
From stdpp Require Import base list.
Import ListNotations.
Local Open Scope string_scope.
Local Open Scope N_scope.
Local Open Scope nat_scope.

(* ===================================================================== *)
(** ** Values                                                             *)
(* ===================================================================== *)

(** JavaScript values that travel as abort reasons, close reasons and
    thrown errors. *)
Inductive Value : Type :=
| VUndefined
| VNumber (z : Z)
| VString (s : string)
| VError (message : string)                         (* new Error(message) *)
| VTypeError                                        (* member access on undefined *)
| VDOMException (name : string)                     (* thrown by the platform *)
| VClosedError                                      (* the closed indication of Resource *)
| VWebSocketError (code : option Z) (reason : option string).

(** [reason instanceof WebSocketError] *)
Definition instanceof_WebSocketError (v : Value) : bool :=
  match v with
  | VWebSocketError _ _ => true
  | _ => false
  end.

(** The native close event: numeric code and text. *)
Record CloseEvent : Type := mkCloseEvent {
  ce_code : Z;
  ce_reason : string
}.

(** Modelled from the spec: [WebSocketError] of @xstd/custom-error, "a
    structured value with optional numeric code and text, constructible from
    a native close event, or a generic value when no such detail exists". *)
Definition WebSocketError_fromCloseEvent (event : CloseEvent) : Value :=
  VWebSocketError (Some (ce_code event)) (Some (ce_reason event)).

(** Modelled from the spec: [new WebSocketError()], the "generic value when
    no such detail exists". *)
Definition WebSocketError_new : Value := VWebSocketError None None.

(** Outbound payload ([WebSocketUpValue]): text or binary. *)
Inductive UpValue : Type :=
| UpText (s : string)
| UpBinary (bytes : list Byte.byte).

(** The bytes a payload adds to the transport's buffer. *)
Definition byteLength (p : UpValue) : N :=
  match p with
  | UpText s => N.of_nat (String.length s)
  | UpBinary b => N.of_nat (List.length b)
  end.

(** What the network delivers, and what a [MessageEvent] carries as
    [event.data]. *)
Inductive Frame : Type :=
| TextFrame (s : string)
| BinaryFrame (bytes : list Byte.byte).

Inductive DownValue : Type :=
| DownText (s : string)
| DownArrayBuffer (bytes : list Byte.byte)
| DownBlob (bytes : list Byte.byte).

(* ===================================================================== *)
(** ** Abort signals and event listeners                                  *)
(* ===================================================================== *)

(** Modelled from the spec: the cancellation substrate, "a one-shot abort
    signal with a reason". *)
Record AbortSignal : Type := mkAbortSignal {
  aborted : bool;
  reason : Value
}.

(** A signal that has not fired. *)
Definition fresh_signal : AbortSignal := mkAbortSignal false VUndefined.

(** Modelled from the spec: aborting a signal object; "one-shot", so the
    first reason is kept. *)
Definition signal_abort (r : Value) (s : AbortSignal) : AbortSignal :=
  if aborted s then s else mkAbortSignal true r.

(** The signals a listener or a task can be scoped to: the resource's
    [closeSignal] and the signals owned by callers (numbered). *)
Inductive SigRef : Type :=
| CloseSignal
| CallerSignal (id : nat).

Definition SigRef_eqb (a b : SigRef) : bool :=
  match a, b with
  | CloseSignal, CloseSignal => true
  | CallerSignal i, CallerSignal j => Nat.eqb i j
  | _, _ => false
  end.

Inductive EventType : Type := ev_open | ev_close | ev_error | ev_message.

Definition EventType_eqb (a b : EventType) : bool :=
  match a, b with
  | ev_open, ev_open | ev_close, ev_close
  | ev_error, ev_error | ev_message, ev_message => true
  | _, _ => false
  end.

(** The closures the class registers as listeners, with what they capture.
    [onAbort], [onOpen], [onClose], [onError] are the four closures of the
    opener (they capture the caller's optional [signal]); [closeOnClose] and
    [closeOnError] are the constructor's two arrow functions;
    [forwardMessage listener] is the arrow function of [listen]. *)
Inductive Handler : Type :=
| onAbort (signal : option nat)
| onOpen (signal : option nat)
| onClose (signal : option nat)
| onError (signal : option nat)
| closeOnClose
| closeOnError
| forwardMessage (listener : nat).

Definition option_nat_eqb (a b : option nat) : bool :=
  match a, b with
  | None, None => true
  | Some i, Some j => Nat.eqb i j
  | _, _ => false
  end.

Definition Handler_eqb (a b : Handler) : bool :=
  match a, b with
  | onAbort s, onAbort t | onOpen s, onOpen t
  | onClose s, onClose t | onError s, onError t => option_nat_eqb s t
  | closeOnClose, closeOnClose | closeOnError, closeOnError => true
  | forwardMessage i, forwardMessage j => Nat.eqb i j
  | _, _ => false
  end.

(** One registered listener.  [l_id] is the identity of the registration
    (two registrations of equal closures are still two listeners);
    [l_signal] is the [signal] option of [addEventListener]: the sources of
    the (merged) signal whose abort removes the listener, [[]] when the
    option is absent. *)
Record Listener : Type := mkListener {
  l_id : nat;
  l_type : EventType;
  l_handler : Handler;
  l_signal : list SigRef
}.

(* ===================================================================== *)
(** ** The transport                                                      *)
(* ===================================================================== *)

Inductive ReadyState : Type := CONNECTING | OPEN | CLOSING | CLOSED.

Definition ReadyState_eqb (a b : ReadyState) : bool :=
  match a, b with
  | CONNECTING, CONNECTING | OPEN, OPEN
  | CLOSING, CLOSING | CLOSED, CLOSED => true
  | _, _ => false
  end.

Inductive BinaryType : Type := blob | arraybuffer.

(** Modelled from the spec: the transport primitive, "state in {Connecting,
    Open, Closing, Closed}; events {open, close(code, text), error};
    operations send(payload), close(code?, text?); a readable bufferedAmount
    (bytes not yet flushed)".  [sendCalls] and [closeCalls] record the
    operations invoked on the transport, oldest first. *)
Record WebSocket : Type := mkWebSocket {
  readyState : ReadyState;
  binaryType : BinaryType;
  bufferedAmount : N;
  listeners : list Listener;
  sendCalls : list UpValue;
  closeCalls : list (option Z * option string)
}.

(** A URL as the caller passes it; [Malformed] stands for a string the
    platform's URL parser rejects. *)
Inductive Url : Type :=
| WellFormed (href : string)
| Malformed (text : string).

(** Modelled from the spec: a transport as the platform creates it, in the
    Connecting state, with nothing buffered and no listener. *)
Definition WebSocket_fresh : WebSocket :=
  mkWebSocket CONNECTING blob 0%N [] [] [].

(* ===================================================================== *)
(** ** The resource instance, promises and tasks                          *)
(* ===================================================================== *)

Inductive PromiseState : Type :=
| Pending
| Fulfilled
| Rejected (error : Value).

(** A promise with the number of calls made to its capability functions
    ([_resolve] / [_reject]). *)
Record Promise : Type := mkPromise {
  p_state : PromiseState;
  p_settles : nat
}.

(** The teardown callbacks the class registers: only the arrow function of
    lines 123-135. *)
Inductive Teardown : Type := closeTransport.

(** Modelled from the spec: the teardown/close coordinator [CloseStack] of
    @xstd/resource, "addTeardown(callback) (ordered registration, run once
    at close), close(reason) (idempotent, promise resolves after all teardown
    callbacks complete)".  [teardownRuns] records each execution of a
    teardown callback with the reason it received; [stackClosed] is the
    outcome of the close once it has run. *)
Record CloseStack : Type := mkCloseStack {
  teardowns : list Teardown;
  teardownRuns : list Value;
  stackClosed : option PromiseState
}.

(** The fields of a [WebSocketResource] object.  [closeSignal] and
    [closePromise] belong to the [Resource] base class (modelled from the
    spec: "exposes a close signal (fires once, at close-start)");
    [closePromise] is the identity and state of the promise of the close in
    flight; [manager] is [#manager], undefined until line 121 has run. *)
Record Instance : Type := mkInstance {
  closeSignal : AbortSignal;
  closePromise : option (nat * PromiseState);
  manager : option CloseStack
}.

Inductive SleepOutcome : Type :=
| SleepResolved
| SleepRejected (error : Value).

(** Where a [send] call stands: suspended at [await sleep(0, {signal})]
    (with the outcome of the sleep once it has settled), or settled. *)
Inductive SendState : Type :=
| Awaiting (sleep : option SleepOutcome)
| SendFulfilled
| SendRejected (error : Value).

(** A pending [send]: the caller's [options?.signal], the merged signal
    object [runTask] handed to the task, and the state of the async
    function. *)
Record SendTask : Type := mkSendTask {
  t_caller : option nat;
  t_signal : AbortSignal;
  t_state : SendState
}.

(** One invocation of a listener passed to [listen]: the registration, the
    callback and the value it received. *)
Record Delivery : Type := mkDelivery {
  d_listener : nat;
  d_callback : nat;
  d_data : DownValue
}.

(* ===================================================================== *)
(** ** The world                                                          *)
(* ===================================================================== *)

Record World : Type := mkWorld {
  webSocket : option WebSocket;          (* None: no transport was created *)
  signals : nat -> AbortSignal;          (* the callers' signals *)
  abortListeners : list (nat * Handler); (* 'abort' listeners on them *)
  this : option Instance;                (* the resource object *)
  opening : Promise;                     (* the promise returned by open() *)
  sends : list SendTask;                 (* the promises returned by send() *)
  deliveries : list Delivery;            (* listener invocations, oldest first *)
  next_id : nat                          (* identities not yet handed out *)
}.

Definition set_webSocket (ws : option WebSocket) (w : World) : World :=
  mkWorld ws (signals w) (abortListeners w) (this w) (opening w)
          (sends w) (deliveries w) (next_id w).

Definition set_signals (f : nat -> AbortSignal) (w : World) : World :=
  mkWorld (webSocket w) f (abortListeners w) (this w) (opening w)
          (sends w) (deliveries w) (next_id w).

Definition set_abortListeners (l : list (nat * Handler)) (w : World) : World :=
  mkWorld (webSocket w) (signals w) l (this w) (opening w)
          (sends w) (deliveries w) (next_id w).

Definition set_this (i : option Instance) (w : World) : World :=
  mkWorld (webSocket w) (signals w) (abortListeners w) i (opening w)
          (sends w) (deliveries w) (next_id w).

Definition set_opening (p : Promise) (w : World) : World :=
  mkWorld (webSocket w) (signals w) (abortListeners w) (this w) p
          (sends w) (deliveries w) (next_id w).

Definition set_sends (l : list SendTask) (w : World) : World :=
  mkWorld (webSocket w) (signals w) (abortListeners w) (this w) (opening w)
          l (deliveries w) (next_id w).

Definition set_deliveries (l : list Delivery) (w : World) : World :=
  mkWorld (webSocket w) (signals w) (abortListeners w) (this w) (opening w)
          (sends w) l (next_id w).

Definition set_next_id (n : nat) (w : World) : World :=
  mkWorld (webSocket w) (signals w) (abortListeners w) (this w) (opening w)
          (sends w) (deliveries w) n.

(* ===================================================================== *)
(** ** Computations: state passing with exceptions                        *)
(* ===================================================================== *)

(** How a piece of JavaScript ends: normally with a value, or by throwing.
    Effects performed before a throw stay in the world. *)
Inductive Completion (A : Type) : Type :=
| Return (a : A)
| Throw (e : Value).
Arguments Return {A} a.
Arguments Throw {A} e.

Definition M (A : Type) : Type := World -> Completion A * World.

Definition ret {A} (a : A) : M A := fun w => (Return a, w).
Definition throw {A} (e : Value) : M A := fun w => (Throw e, w).
Definition bind {A B} (m : M A) (k : A -> M B) : M B :=
  fun w =>
    match m w with
    | (Return a, w') => k a w'
    | (Throw e, w') => (Throw e, w')
    end.
Definition get : M World := fun w => (Return w, w).
Definition modify (f : World -> World) : M unit := fun w => (Return tt, f w).

#[global] Instance M_ret : MRet M := @ret.
#[global] Instance M_bind : MBind M := fun A B k m => bind m k.

(** The world a computation leaves, whatever its completion. *)
Definition exec {A} (m : M A) (w : World) : World := snd (m w).

(* ===================================================================== *)
(** ** Operations of the platform objects                                 *)
(* ===================================================================== *)

Definition set_readyState (r : ReadyState) (ws : WebSocket) : WebSocket :=
  mkWebSocket r (binaryType ws) (bufferedAmount ws) (listeners ws)
              (sendCalls ws) (closeCalls ws).

Definition set_binaryType (b : BinaryType) (ws : WebSocket) : WebSocket :=
  mkWebSocket (readyState ws) b (bufferedAmount ws) (listeners ws)
              (sendCalls ws) (closeCalls ws).

Definition set_bufferedAmount (n : N) (ws : WebSocket) : WebSocket :=
  mkWebSocket (readyState ws) (binaryType ws) n (listeners ws)
              (sendCalls ws) (closeCalls ws).

Definition set_listeners (l : list Listener) (ws : WebSocket) : WebSocket :=
  mkWebSocket (readyState ws) (binaryType ws) (bufferedAmount ws) l
              (sendCalls ws) (closeCalls ws).

(** The transport a piece of code holds.  Reading a member of [undefined]
    throws a [TypeError]. *)
Definition the_webSocket : M WebSocket :=
  fun w =>
    match webSocket w with
    | Some ws => (Return ws, w)
    | None => (Throw VTypeError, w)
    end.

Definition update_webSocket (f : WebSocket -> WebSocket) : M unit :=
  ws ← the_webSocket;
  modify (set_webSocket (Some (f ws))).

Definition the_instance : M Instance :=
  fun w =>
    match this w with
    | Some i => (Return i, w)
    | None => (Throw VTypeError, w)
    end.

(** Modelled from the spec: [new WebSocket(url, protocols)] of the
    platform.  A malformed URL makes the constructor throw a [SyntaxError];
    otherwise a transport is created in the Connecting state, with the
    platform's default binary type. *)
Definition WebSocket_new (url : Url) (protocols : list string) : M unit :=
  match url with
  | Malformed _ => throw (VDOMException "SyntaxError")
  | WellFormed _ => modify (set_webSocket (Some WebSocket_fresh))
  end.

(** Modelled from the spec: [webSocket.send(payload)], "operations
    send(payload)" with "a readable bufferedAmount (bytes not yet flushed)".
    The call is recorded and the payload's bytes are added to the buffered
    amount; a transport still Connecting refuses the call. *)
Definition WebSocket_send (payload : UpValue) : M unit :=
  ws ← the_webSocket;
  match readyState ws with
  | CONNECTING => throw (VDOMException "InvalidStateError")
  | _ =>
      modify (set_webSocket (Some
        (mkWebSocket (readyState ws) (binaryType ws)
                     (bufferedAmount ws + byteLength payload)%N
                     (listeners ws) (sendCalls ws ++ [payload])
                     (closeCalls ws))))
  end.

(** Modelled from the spec: [webSocket.close(code, reason)], "operations
    close(code?, text?)".  The call is recorded with its arguments, and a
    transport that is Connecting or Open starts closing.  The platform's
    check of the code's range is not part of the contract and is left out. *)
Definition WebSocket_close (code : option Z) (text : option string) : M unit :=
  ws ← the_webSocket;
  modify (set_webSocket (Some
    (mkWebSocket
       (match readyState ws with
        | CONNECTING | OPEN => CLOSING
        | r => r
        end)
       (binaryType ws) (bufferedAmount ws) (listeners ws) (sendCalls ws)
       (closeCalls ws ++ [(code, text)])))).

(** The current state of the signal a [SigRef] names. *)
Definition sig_aborted (w : World) (r : SigRef) : bool :=
  match r with
  | CloseSignal =>
      match this w with
      | Some i => aborted (closeSignal i)
      | None => false
      end
  | CallerSignal id => aborted (signals w id)
  end.

(** [signal?.aborted] for an optional caller signal. *)
Definition caller_aborted (w : World) (signal : option nat) : bool :=
  match signal with
  | Some id => aborted (signals w id)
  | None => false
  end.

(** Modelled from the spec: [mergeAbortSignals] of @xstd/abortable, "a
    combinator that merges several signals into one that fires on the
    first".  The merged signal is represented by the list of its sources;
    an [undefined] entry contributes nothing. *)
Definition mergeAbortSignals (sources : list (option SigRef)) : list SigRef :=
  omap id sources.

(** Modelled from the spec: [webSocket.addEventListener(type, handler,
    { signal })] of the platform, a subscription "scoped so the subscription
    is removed once" the signal fires.  Nothing is registered when the signal
    is already aborted. *)
Definition addEventListener (type : EventType) (h : Handler)
    (signal : list SigRef) : M unit :=
  w ← get;
  if existsb (sig_aborted w) signal then mret tt
  else
    update_webSocket (fun ws =>
      set_listeners (listeners ws ++ [mkListener (next_id w) type h signal]) ws);;
    modify (set_next_id (S (next_id w))).

(** Whether [l] is the listener [removeEventListener(type, h)] names. *)
Definition same_listener (type : EventType) (h : Handler) (l : Listener) : bool :=
  EventType_eqb (l_type l) type && Handler_eqb (l_handler l) h.

(** Modelled from the spec: [webSocket.removeEventListener(type, handler)]
    of the platform. *)
Definition removeEventListener (type : EventType) (h : Handler) : M unit :=
  update_webSocket (fun ws =>
    set_listeners
      (List.filter (fun l => negb (same_listener type h l)) (listeners ws)) ws).

(** Modelled from the spec: [signal?.addEventListener('abort', handler)] of
    the platform. *)
Definition signal_addEventListener (signal : option nat) (h : Handler) : M unit :=
  match signal with
  | Some id => w ← get; modify (set_abortListeners (abortListeners w ++ [(id, h)]))
  | None => mret tt
  end.

(** Modelled from the spec: [signal?.removeEventListener('abort', handler)]
    of the platform. *)
Definition signal_removeEventListener (signal : option nat) (h : Handler) : M unit :=
  match signal with
  | Some id =>
      w ← get;
      modify (set_abortListeners
        (List.filter (fun e => negb (Nat.eqb (fst e) id && Handler_eqb (snd e) h))
                     (abortListeners w)))
  | None => mret tt
  end.

(** Modelled from the spec: [signal?.throwIfAborted()] of the platform; it
    throws the signal's reason. *)
Definition throwIfAborted (signal : option nat) : M unit :=
  match signal with
  | Some id =>
      w ← get;
      if aborted (signals w id) then throw (reason (signals w id)) else mret tt
  | None => mret tt
  end.

(** Modelled from the spec: the capability functions [_resolve] and
    [_reject] of the promise returned by [open]; only the first call settles
    the promise ("exactly one outcome settles"). *)
Definition settle (st : PromiseState) (p : Promise) : Promise :=
  mkPromise (match p_state p with Pending => st | s => s end) (S (p_settles p)).

Definition _resolve : M unit := w ← get; modify (set_opening (settle Fulfilled (opening w))).
Definition _reject (error : Value) : M unit :=
  w ← get; modify (set_opening (settle (Rejected error) (opening w))).

(* ===================================================================== *)
(** ** Aborting a signal                                                  *)
(* ===================================================================== *)

(** Whether signal [r] is a source of the signal the listener was
    registered with. *)
Definition scoped_to (r : SigRef) (l : Listener) : bool :=
  existsb (SigRef_eqb r) (l_signal l).

(** Modelled from the spec: [runTask] runs its function "with a signal that
    aborts on resource-close or caller-abort": the merged signal of a task
    depends on the close signal and on the caller's signal, if any. *)
Definition task_depends (r : SigRef) (t : SendTask) : bool :=
  match r with
  | CloseSignal => true
  | CallerSignal id => option_nat_eqb (t_caller t) (Some id)
  end.

(** Modelled from the spec: [sleep] of @xstd/abortable, "a cancellable
    delay primitive".  A sleep still pending when its signal aborts rejects
    with the signal's reason. *)
Definition abort_task (r : SigRef) (why : Value) (t : SendTask) : SendTask :=
  if task_depends r t && negb (aborted (t_signal t)) then
    mkSendTask (t_caller t) (mkAbortSignal true why)
      (match t_state t with
       | Awaiting None => Awaiting (Some (SleepRejected why))
       | s => s
       end)
  else t.

(** Modelled from the spec: what the abort of signal [r] does to what was
    scoped to it.  Listeners registered with it leave the transport ("the
    subscription is automatically removed the moment either ... fires"), and
    the merged signals of the tasks abort. *)
Definition abort_dependents (r : SigRef) (why : Value) (w : World) : World :=
  let w1 :=
    match webSocket w with
    | Some ws =>
        set_webSocket (Some (set_listeners
          (List.filter (fun l => negb (scoped_to r l)) (listeners ws)) ws)) w
    | None => w
    end in
  set_sends (List.map (abort_task r why) (sends w1)) w1.

(* ===================================================================== *)
(** ** The teardown callback                                              *)
(* ===================================================================== *)

(** Modelled from the spec: [reason.code] and [reason.reason] of a
    [WebSocketError], its "optional numeric code and text". *)
Definition WebSocketError_code (v : Value) : option Z :=
  match v with
  | VWebSocketError c _ => c
  | _ => None
  end.

Definition WebSocketError_reason (v : Value) : option string :=
  match v with
  | VWebSocketError _ r => r
  | _ => None
  end.

(** Lines 123-135: the teardown callback the constructor registers. *)
Definition teardown (why : Value) : M unit :=
  ws ← the_webSocket;
  if ReadyState_eqb (readyState ws) CONNECTING
     || ReadyState_eqb (readyState ws) OPEN
  then
    if instanceof_WebSocketError why
    then WebSocket_close (WebSocketError_code why) (WebSocketError_reason why)
    else WebSocket_close None None
  else mret tt.

(* ===================================================================== *)
(** ** Resource base class and CloseStack                                 *)
(* ===================================================================== *)

(** Calling a registered teardown callback. *)
Definition run_teardown (t : Teardown) (why : Value) : M unit :=
  match t with
  | closeTransport => teardown why
  end.

(** An update of [this.#manager]; the field is undefined before line 121. *)
Definition update_manager (f : CloseStack -> CloseStack) : M unit :=
  i ← the_instance;
  match manager i with
  | Some m =>
      modify (set_this (Some (mkInstance (closeSignal i) (closePromise i) (Some (f m)))))
  | None => throw VTypeError
  end.

(** Modelled from the spec: [new CloseStack(this)], an empty teardown stack. *)
Definition CloseStack_new : M unit :=
  i ← the_instance;
  modify (set_this (Some
    (mkInstance (closeSignal i) (closePromise i) (Some (mkCloseStack [] [] None))))).

(** Modelled from the spec: [manager.addTeardown(callback)], "ordered
    registration". *)
Definition addTeardown (t : Teardown) : M unit :=
  update_manager (fun m =>
    mkCloseStack (teardowns m ++ [t]) (teardownRuns m) (stackClosed m)).

(** Modelled from the spec: the run of the registered callbacks, in order
    ("if teardown does throw, that exception propagates out of close()'s
    settled promise"). *)
Fixpoint run_teardowns (ts : list Teardown) (why : Value) : M unit :=
  match ts with
  | [] => mret tt
  | t :: ts' =>
      update_manager (fun m =>
        mkCloseStack (teardowns m) (teardownRuns m ++ [why]) (stackClosed m));;
      run_teardown t why;;
      run_teardowns ts' why
  end.

(** Modelled from the spec: [manager.close(reason)], "idempotent, promise
    resolves after all teardown callbacks complete".  The result is the state
    of the promise it returns; the teardown callback of this class is
    synchronous, so the promise is settled when the call returns. *)
Definition CloseStack_close (why : Value) : M PromiseState :=
  fun w =>
    match this w with
    | None => (Return (Rejected VTypeError), w)
    | Some i =>
        match manager i with
        | None => (Return (Rejected VTypeError), w)
        | Some m =>
            match stackClosed m with
            | Some st => (Return st, w)
            | None =>
                let '(c, w') := run_teardowns (teardowns m) why w in
                let st := match c with
                          | Return _ => Fulfilled
                          | Throw e => Rejected e
                          end in
                (Return st,
                 exec (update_manager (fun m' =>
                   mkCloseStack (teardowns m') (teardownRuns m') (Some st))) w')
            end
        end
    end.

(** Modelled from the spec: [super(close)]; the [Resource] base class
    creates the close signal, not aborted. *)
Definition Resource_super : M unit :=
  modify (set_this (Some (mkInstance fresh_signal None None))).

(** Modelled from the spec: [resource.closeSignal]. *)
Definition closeSignalOf (w : World) : AbortSignal :=
  match this w with
  | Some i => closeSignal i
  | None => fresh_signal
  end.

(** Modelled from the spec: [resource.closed], true once the close signal
    is aborted. *)
Definition closed (w : World) : bool := sig_aborted w CloseSignal.

(** Modelled from the spec: [resource.throwIfClosed()], the "guard that
    fails fast when the resource is closed". *)
Definition throwIfClosed : M unit :=
  w ← get;
  if closed w then throw VClosedError else mret tt.

(** Modelled from the spec: the first phase of [resource.close(reason)] in
    the [Resource] base class; the close signal "fires once, at
    close-start". *)
Definition close_start (why : Value) : M unit :=
  i ← the_instance;
  modify (set_this (Some
    (mkInstance (signal_abort why (closeSignal i)) None (manager i))));;
  modify (abort_dependents CloseSignal why).

(** Modelled from the spec: the second phase of [resource.close(reason)].
    The function given to [super] runs, which is
    [this.#manager.close(reason)] (lines 88-90), and its promise is kept; the
    result is the identity of that promise. *)
Definition close_finish (why : Value) : M nat :=
  st ← CloseStack_close why;
  w ← get;
  i ← the_instance;
  modify (set_this (Some
    (mkInstance (closeSignal i) (Some (next_id w, st)) (manager i))));;
  modify (set_next_id (S (next_id w)));;
  mret (next_id w).

(** Modelled from the spec: [resource.close(reason)] of the [Resource] base
    class, which "starts the unified close procedure if not already started,
    or joins the in-flight/completed one".  The result is the identity of
    the promise returned. *)
Definition Resource_close (why : Value) : M nat :=
  i ← the_instance;
  match closePromise i with
  | Some (p, _) => mret p
  | None =>
      close_start why;;
      close_finish why
  end.

(* ===================================================================== *)
(** ** The class                                                          *)
(* ===================================================================== *)

(** Lines 87-136: [constructor(webSocket)], where [webSocket] is the
    transport of the world. *)
Definition WebSocketResource_new : M unit :=
  Resource_super;;
  ws ← the_webSocket;
  if negb (ReadyState_eqb (readyState ws) OPEN)
  then throw (VError "WebSocket not open.")
  else
    addEventListener ev_close closeOnClose [CloseSignal];;
    addEventListener ev_error closeOnError [CloseSignal];;
    CloseStack_new;;
    addTeardown closeTransport.

(** Lines 24-29: [end], which removes the four listeners of the race. *)
Definition end_ (signal : option nat) : M unit :=
  signal_removeEventListener signal (onAbort signal);;
  removeEventListener ev_open (onOpen signal);;
  removeEventListener ev_close (onClose signal);;
  removeEventListener ev_error (onError signal).

(** Lines 31-34: [resolve]. *)
Definition resolve (signal : option nat) : M unit :=
  end_ signal;;
  _resolve.

(** Lines 36-39: [reject]. *)
Definition reject (signal : option nat) (error : Value) : M unit :=
  end_ signal;;
  _reject error.

(** Lines 41-44: the body of [onAbort]; [signal!.reason] is read after
    [end()] has run. *)
Definition do_onAbort (signal : option nat) : M unit :=
  end_ signal;;
  w ← get;
  match signal with
  | Some id => reject signal (reason (signals w id))
  | None => throw VTypeError
  end.

(** Lines 46-49: the body of [onOpen]; the resource is constructed before
    [resolve] is called, so an exception of the constructor leaves the
    promise pending. *)
Definition do_onOpen (signal : option nat) : M unit :=
  end_ signal;;
  WebSocketResource_new;;
  resolve signal.

(** Lines 51-54: the body of [onClose]. *)
Definition do_onClose (signal : option nat) (event : CloseEvent) : M unit :=
  end_ signal;;
  reject signal (WebSocketError_fromCloseEvent event).

(** Lines 56-59: the body of [onError]. *)
Definition do_onError (signal : option nat) : M unit :=
  end_ signal;;
  reject signal WebSocketError_new.

(** Lines 21-68: the executor given to [new Promise]. *)
Definition executor (url : Url) (protocols : list string)
    (signal : option nat) : M unit :=
  throwIfAborted signal;;
  WebSocket_new url protocols;;
  update_webSocket (set_binaryType arraybuffer);;
  signal_addEventListener signal (onAbort signal);;
  addEventListener ev_open (onOpen signal) [];;
  addEventListener ev_close (onClose signal) [];;
  addEventListener ev_error (onError signal) [].

(** Modelled from the spec: [new Promise(executor)] of the platform; the
    promise starts pending and an exception thrown by the executor rejects
    it. *)
Definition Promise_new (body : M unit) : M unit :=
  fun w =>
    match body (set_opening (mkPromise Pending 0) w) with
    | (Return _, w') => (Return tt, w')
    | (Throw e, w') => (Return tt, set_opening (settle (Rejected e) (opening w')) w')
    end.

(** Lines 77-82: [WebSocketResource.open(url, { protocols, signal })].
    Modelled from the spec: [ResourceFactory.open] hands its arguments to
    the function the factory was built from. *)
Definition open (url : Url) (protocols : list string) (signal : option nat) : M unit :=
  Promise_new (executor url protocols signal).

(** Modelled from the spec: [sleep(0, { signal })] of @xstd/abortable, "a
    cancellable delay primitive": the promise it returns is rejected with
    the signal's reason when the signal is already aborted, and is pending
    otherwise. *)
Definition sleep (signal : AbortSignal) : option SleepOutcome :=
  if aborted signal then Some (SleepRejected (reason signal)) else None.

(** Lines 142-151, from the loop test to the next suspension or to the end
    of the function.  [signal] is the merged signal [runTask] passed in. *)
Definition send_loop (signal : AbortSignal) : M SendState :=
  ws ← the_webSocket;
  if (0 <? bufferedAmount ws)%N
  then mret (Awaiting (sleep signal))
  else mret SendFulfilled.

(** Lines 145-150: the [catch] block, entered when the awaited sleep
    rejects with [error]; [options_signal] is [options?.signal]. *)
Definition send_catch (options_signal : option nat) (signal : AbortSignal)
    (error : Value) : M SendState :=
  w ← get;
  if caller_aborted w options_signal then throw error
  else
    ws ← the_webSocket;
    if (0 <? bufferedAmount ws)%N then throw error
    else send_loop signal.

(** The continuation of [await sleep(0, { signal })]. *)
Definition send_resume (options_signal : option nat) (signal : AbortSignal)
    (o : SleepOutcome) : M SendState :=
  match o with
  | SleepResolved => send_loop signal
  | SleepRejected error => send_catch options_signal signal error
  end.

(** Lines 139-151 up to the first suspension. *)
Definition send_task (payload : UpValue) (signal : AbortSignal) : M SendState :=
  WebSocket_send payload;;
  send_loop signal.

(** Modelled from the spec: an [async] function turns an exception into
    the rejection of its promise ("every failure surfaces as a rejected
    result to the direct caller"). *)
Definition async (body : M SendState) : M SendState :=
  fun w =>
    match body w with
    | (Return st, w') => (Return st, w')
    | (Throw e, w') => (Return (SendRejected e), w')
    end.

(** Modelled from the spec: [runTask(fn, { signal })] of [CloseStack]
    "runs fn with a signal that aborts on resource-close or caller-abort,
    tracked so close can interact with in-flight tasks", and send "fails
    synchronously with a closed indication if the resource is already closed
    before the payload is even accepted".  The result is the index of the
    promise returned, in [sends]. *)
Definition runTask (fn : AbortSignal -> M SendState)
    (options_signal : option nat) : M nat :=
  w ← get;
  if closed w then
    modify (set_sends (sends w ++
      [mkSendTask options_signal (closeSignalOf w) (SendRejected VClosedError)]));;
    mret (length (sends w))
  else
    let signal :=
      match options_signal with
      | Some id => signals w id
      | None => fresh_signal
      end in
    st ← async (fn signal);
    w' ← get;
    modify (set_sends (sends w' ++ [mkSendTask options_signal signal st]));;
    mret (length (sends w')).

(** Lines 138-153: [send(payload, options)]. *)
Definition send (payload : UpValue) (options_signal : option nat) : M nat :=
  runTask (fun signal => send_task payload signal) options_signal.

(** Lines 155-171: [listen(listener, { signal })]. *)
Definition listen (listener : nat) (signal : option nat) : M unit :=
  w ← get;
  if caller_aborted w signal then mret tt
  else
    throwIfClosed;;
    addEventListener ev_message (forwardMessage listener)
      (mergeAbortSignals [Some CloseSignal; CallerSignal <$> signal]).

(* ===================================================================== *)
(** ** Events: what the platform and the callers do                       *)
(* ===================================================================== *)

(** Modelled from the spec: the event objects the transport dispatches,
    "events {open, close(code, text), error}" and the inbound message. *)
Inductive DomEvent : Type :=
| OpenEvent
| CloseEv (event : CloseEvent)
| ErrorEvent
| MessageEvent (data : DownValue).

Definition event_type (e : DomEvent) : EventType :=
  match e with
  | OpenEvent => ev_open
  | CloseEv _ => ev_close
  | ErrorEvent => ev_error
  | MessageEvent _ => ev_message
  end.

(** Calling the closure behind a listener.  The callback given to [listen]
    is the caller's code: its invocation is recorded with the value it
    receives. *)
Definition invoke (l : Listener) (e : DomEvent) : M unit :=
  match l_handler l, e with
  | onOpen s, _ => do_onOpen s
  | onClose s, CloseEv event => do_onClose s event
  | onError s, _ => do_onError s
  | closeOnClose, CloseEv event =>                       (* line 102 *)
      Resource_close (WebSocketError_fromCloseEvent event);; mret tt
  | closeOnError, _ =>                                   (* line 114 *)
      Resource_close WebSocketError_new;; mret tt
  | forwardMessage listener, MessageEvent data =>        (* line 165 *)
      w ← get;
      modify (set_deliveries
        (deliveries w ++ [mkDelivery (l_id l) listener data]))
  | _, _ => mret tt
  end.

(** Whether the registration [id] is among the transport's listeners. *)
Definition registered (id : nat) (w : World) : bool :=
  match webSocket w with
  | Some ws => existsb (fun l => Nat.eqb (l_id l) id) (listeners ws)
  | None => false
  end.

(** Modelled from the spec: the transport's "events {open, close(code,
    text), error}" and its inbound messages reach the listeners registered
    for them.  As on the platform, the listeners of the event's type run in
    registration order, each one only if it is still registered when its
    turn comes, and an exception thrown by a listener is reported and does
    not stop the dispatch. *)
Definition dispatch (e : DomEvent) (w : World) : World :=
  match webSocket w with
  | Some ws =>
      fold_left
        (fun w' l => if registered (l_id l) w' then exec (invoke l e) w' else w')
        (List.filter (fun l => EventType_eqb (l_type l) (event_type e)) (listeners ws))
        w
  | None => w
  end.

(** Calling the closure behind an 'abort' listener. *)
Definition invoke_abort (h : Handler) : M unit :=
  match h with
  | onAbort s => do_onAbort s
  | _ => mret tt
  end.

(** Whether [h] is still an 'abort' listener of the caller's signal [id]. *)
Definition abort_registered (id : nat) (h : Handler) (w : World) : bool :=
  existsb (fun e => Nat.eqb (fst e) id && Handler_eqb (snd e) h) (abortListeners w).

(** Modelled from the spec: [controller.abort(why)] on the caller's signal
    [id].  The signal is one-shot; what was scoped to it is released, then
    its 'abort' listeners run. *)
Definition abort_signal (id : nat) (why : Value) (w : World) : World :=
  if aborted (signals w id) then w
  else
    let w1 :=
      set_signals (fun j => if Nat.eqb j id then mkAbortSignal true why
                            else signals w j) w in
    let w2 := abort_dependents (CallerSignal id) why w1 in
    fold_left
      (fun w' e =>
         if abort_registered id (snd e) w'
         then exec (invoke_abort (snd e)) w'
         else w')
      (List.filter (fun e => Nat.eqb (fst e) id) (abortListeners w2))
      w2.

(** Modelled from the spec: the "inbound payload: whatever the transport
    decodes a frame into (text or binary)"; the platform decodes a binary
    frame according to the transport's binary type. *)
Definition frame_data (b : BinaryType) (f : Frame) : DownValue :=
  match f with
  | TextFrame s => DownText s
  | BinaryFrame bytes =>
      match b with
      | arraybuffer => DownArrayBuffer bytes
      | blob => DownBlob bytes
      end
  end.

(** The order in which a transport goes through its states; it never goes
    back. *)
Definition rank (r : ReadyState) : nat :=
  match r with
  | CONNECTING => 0
  | OPEN => 1
  | CLOSING => 2
  | CLOSED => 3
  end.

(** The task [t] once its async function has reached [st]. *)
Definition set_task_state (st : SendState) (t : SendTask) : SendTask :=
  mkSendTask (t_caller t) (t_signal t) st.

(** What can happen to a world: the platform's events and the callers'
    calls.  The transport may be more permissive here than a real one (it may
    fire 'close' twice, or flush bytes it does not have); every property
    below that quantifies over events holds for the real ones all the more. *)
Inductive Event : Type :=
| Abort (id : nat) (why : Value)       (* a caller aborts its signal *)
| TransportOpen                        (* the connection is established *)
| TransportAdvance (r : ReadyState)    (* the transport starts closing or fails *)
| TransportError                       (* the transport fires 'error' *)
| TransportClose (event : CloseEvent)  (* the transport fires 'close' *)
| TransportMessage (f : Frame)         (* a message arrives *)
| TransportFlush (n : N)               (* n buffered bytes reach the network *)
| TimerFires (task : nat)              (* the delay of a pending sleep elapses *)
| Resume (task : nat)                  (* a settled await continues *)
| CallClose (why : Value)              (* resource.close(why) *)
| CallSend (payload : UpValue) (signal : option nat)
| CallListen (listener : nat) (signal : option nat).

(** A caller can call a method only on a resource it was given, that is,
    one whose constructor ran to its end. *)
Definition has_resource (w : World) : bool :=
  match this w with
  | Some i =>
      match manager i with
      | Some _ => true
      | None => false
      end
  | None => false
  end.

(** One turn of the event loop: what the platform or a caller does next,
    and everything the class runs in response before control returns. *)
Definition step (e : Event) (w : World) : World :=
  match e with
  | Abort id why => abort_signal id why w
  | TransportOpen =>
      match webSocket w with
      | Some ws =>
          match readyState ws with
          | CONNECTING =>
              dispatch OpenEvent (set_webSocket (Some (set_readyState OPEN ws)) w)
          | _ => w
          end
      | None => w
      end
  | TransportAdvance r =>
      match webSocket w with
      | Some ws =>
          if (rank (readyState ws) <? rank r) && (1 <? rank r)
          then set_webSocket (Some (set_readyState r ws)) w
          else w
      | None => w
      end
  | TransportError => dispatch ErrorEvent w
  | TransportClose event =>
      match webSocket w with
      | Some ws =>
          dispatch (CloseEv event) (set_webSocket (Some (set_readyState CLOSED ws)) w)
      | None => w
      end
  | TransportMessage f =>
      match webSocket w with
      | Some ws =>
          match readyState ws with
          | OPEN => dispatch (MessageEvent (frame_data (binaryType ws) f)) w
          | _ => w
          end
      | None => w
      end
  | TransportFlush n =>
      match webSocket w with
      | Some ws =>
          set_webSocket (Some (set_bufferedAmount (bufferedAmount ws - n)%N ws)) w
      | None => w
      end
  | TimerFires t =>
      match sends w !! t with
      | Some task =>
          match t_state task with
          | Awaiting None =>
              set_sends (<[t := set_task_state (Awaiting (Some SleepResolved)) task]>
                           (sends w)) w
          | _ => w
          end
      | None => w
      end
  | Resume t =>
      match sends w !! t with
      | Some task =>
          match t_state task with
          | Awaiting (Some o) =>
              match async (send_resume (t_caller task) (t_signal task) o) w with
              | (Return st, w') =>
                  set_sends (<[t := set_task_state st task]> (sends w')) w'
              | (Throw _, w') => w'
              end
          | _ => w
          end
      | None => w
      end
  | CallClose why =>
      if has_resource w then exec (Resource_close why) w else w
  | CallSend payload signal =>
      if has_resource w then exec (send payload signal) w else w
  | CallListen listener signal =>
      if has_resource w then exec (listen listener signal) w else w
  end.

(** A sequence of turns, oldest first. *)
Definition run (evs : list Event) (w : World) : World :=
  fold_left (fun w' e => step e w') evs w.

(** A world in which nothing has happened yet: no transport, no resource,
    the callers' signals in the given states. *)
Definition empty_world (sigs : nat -> AbortSignal) : World :=
  mkWorld None sigs [] None (mkPromise Pending 0) [] [] 0.

(** A world in which a caller holds a transport it created itself. *)
Definition world_with (ws : WebSocket) (sigs : nat -> AbortSignal) : World :=
  mkWorld (Some ws) sigs [] None (mkPromise Pending 0) [] []
          (S (list_max (List.map l_id (listeners ws)))).

(** The teardown callbacks registered with the resource's [CloseStack];
    none while no [CloseStack] exists. *)
Definition registered_teardowns (w : World) : list Teardown :=
  match this w with
  | Some i =>
      match manager i with
      | Some m => teardowns m
      | None => []
      end
  | None => []
  end.

(* ===================================================================== *)
(** ** The worlds of a constructed resource                               *)
(* ===================================================================== *)

Definition closeListener (id : nat) : Listener :=
  mkListener id ev_close closeOnClose [CloseSignal].

Definition errorListener (id : nat) : Listener :=
  mkListener id ev_error closeOnError [CloseSignal].

(** A subscription made by [listen]: a 'message' listener scoped to the
    close signal, merged with the caller's signal when there is one; the
    caller's signal has not fired. *)
Definition subscription (sigs : nat -> AbortSignal) (l : Listener) : Prop :=
  l_type l = ev_message /\
  (exists cb, l_handler l = forwardMessage cb) /\
  (l_signal l = [CloseSignal] \/
   exists id, l_signal l = [CloseSignal; CallerSignal id] /\ aborted (sigs id) = false).

(** The resource object as the constructor leaves it. *)
Definition instance_open : Instance :=
  mkInstance fresh_signal None (Some (mkCloseStack [closeTransport] [] None)).

(** The resource object once [close(why)] has run; [p] is the promise of
    the close. *)
Definition instance_closed (why : Value) (p : nat) : Instance :=
  mkInstance (mkAbortSignal true why) (Some (p, Fulfilled))
    (Some (mkCloseStack [closeTransport] [why] (Some Fulfilled))).

(** The shape of every world in which a resource lives, while it is open
    and after it closed. *)
Inductive resource_inv : World -> Prop :=
| ResourceOpen rs bt ba idc ide subs scs ccs sigs op tasks dels nid :
    rs <> CONNECTING ->
    Forall (subscription sigs) subs ->
    NoDup (idc :: ide :: List.map l_id subs) ->
    Forall (fun i => i < nid) (idc :: ide :: List.map l_id subs) ->
    resource_inv
      (mkWorld
         (Some (mkWebSocket rs bt ba
                  (closeListener idc :: errorListener ide :: subs) scs ccs))
         sigs [] (Some instance_open) op tasks dels nid)
| ResourceClosed rs bt ba scs ccs sigs why p op tasks dels nid :
    rs <> CONNECTING ->
    p < nid ->
    resource_inv
      (mkWorld (Some (mkWebSocket rs bt ba [] scs ccs))
         sigs [] (Some (instance_closed why p)) op tasks dels nid).

(** What the teardown callback does to the transport. *)
Definition torn_down (why : Value) (ws : WebSocket) : WebSocket :=
  match readyState ws with
  | CONNECTING | OPEN =>
      mkWebSocket CLOSING (binaryType ws) (bufferedAmount ws) (listeners ws)
        (sendCalls ws)
        (closeCalls ws ++ [(WebSocketError_code why, WebSocketError_reason why)])
  | _ => ws
  end.

(** The values the listeners of [subs] receive when [data] arrives. *)
Definition callback_of (l : Listener) : nat :=
  match l_handler l with
  | forwardMessage cb => cb
  | _ => 0
  end.

Definition delivery_to (data : DownValue) (l : Listener) : Delivery :=
  mkDelivery (l_id l) (callback_of l) data.


(** The state [send]'s async function reaches when it runs from the loop
    test on, and when it continues after the sleep. *)
Definition loop_state (signal : AbortSignal) (ws : WebSocket) : SendState :=
  if (0 <? bufferedAmount ws)%N then Awaiting (sleep signal) else SendFulfilled.

Definition resume_state (options_signal : option nat) (signal : AbortSignal)
    (o : SleepOutcome) (w : World) (ws : WebSocket) : SendState :=
  match o with
  | SleepResolved => loop_state signal ws
  | SleepRejected error =>
      if caller_aborted w options_signal || (0 <? bufferedAmount ws)%N
      then SendRejected error
      else SendFulfilled
  end.

(** The merged signal [runTask] hands to a task of a resource that is not
    closed. *)
Definition task_signal (w : World) (c : option nat) : AbortSignal :=
  match c with
  | Some id => signals w id
  | None => fresh_signal
  end.

(** The transport after [send(payload)]. *)
Definition sent (payload : UpValue) (ws : WebSocket) : WebSocket :=
  mkWebSocket (readyState ws) (binaryType ws)
    (bufferedAmount ws + byteLength payload)%N (listeners ws)
    (sendCalls ws ++ [payload]) (closeCalls ws).

(** The listener [listen] registers. *)
Definition subscribe (id cb : nat) (c : option nat) : Listener :=
  mkListener id ev_message (forwardMessage cb)
    (CloseSignal :: match c with
                    | Some s => [CallerSignal s]
                    | None => []
                    end).

(* ===================================================================== *)
(** ** The worlds of the establishment race                               *)
(* ===================================================================== *)

(** What the executor registers: three listeners on the transport and,
    when the caller gave a signal, one 'abort' listener on it. *)
Definition raceListeners (signal : option nat) : list Listener :=
  [mkListener 0 ev_open (onOpen signal) [];
   mkListener 1 ev_close (onClose signal) [];
   mkListener 2 ev_error (onError signal) []].

Definition raceAbortListeners (signal : option nat) : list (nat * Handler) :=
  match signal with
  | Some id => [(id, onAbort signal)]
  | None => []
  end.

Definition is_race_handler (h : Handler) : bool :=
  match h with
  | onAbort _ | onOpen _ | onClose _ | onError _ => true
  | _ => false
  end.

(** The listeners of the race still registered, on the transport and on
    the callers' signals. *)
Definition race_registrations (w : World) : nat :=
  match webSocket w with
  | Some ws => length (List.filter (fun l => is_race_handler (l_handler l)) (listeners ws))
  | None => 0
  end
  + length (List.filter (fun e => is_race_handler (snd e)) (abortListeners w)).

(** The race is on: the promise is pending and the listeners are in place. *)
Inductive racing (signal : option nat) : World -> Prop :=
| Racing rs ba sigs :
    rs <> OPEN ->
    caller_aborted (empty_world sigs) signal = false ->
    racing signal
      (mkWorld (Some (mkWebSocket rs arraybuffer ba (raceListeners signal) [] []))
         sigs (raceAbortListeners signal) None (mkPromise Pending 0) [] [] 3).

(** The race ended with a rejection: no resource exists. *)
Inductive lost : World -> Prop :=
| Lost rs ba sigs error :
    lost (mkWorld (Some (mkWebSocket rs arraybuffer ba [] [] []))
            sigs [] None (mkPromise (Rejected error) 1) [] [] 3).

(** The executor threw before it created or kept a transport. *)
Inductive unstarted : World -> Prop :=
| Unstarted sigs error :
    unstarted (mkWorld None sigs [] None (mkPromise (Rejected error) 1) [] [] 0).

(** The race ended with the transport open: the resource lives. *)
Definition won (w : World) : Prop :=
  resource_inv w /\ opening w = mkPromise Fulfilled 1.

Definition race_inv (signal : option nat) (w : World) : Prop :=
  racing signal w \/ lost w \/ unstarted w \/ won w.

(** The outcome an event gives the race, if any. *)
Definition race_outcome (signal : option nat) (e : Event) (w : World)
    : option PromiseState :=
  match e with
  | Abort id why =>
      if option_nat_eqb signal (Some id) && negb (aborted (signals w id))
      then Some (Rejected why) else None
  | TransportOpen =>
      match webSocket w with
      | Some ws =>
          match readyState ws with
          | CONNECTING => Some Fulfilled
          | _ => None
          end
      | None => None
      end
  | TransportClose event => Some (Rejected (WebSocketError_fromCloseEvent event))
  | TransportError => Some (Rejected WebSocketError_new)
  | _ => None
  end.

(* ===================================================================== *)
(** ** Observations                                                       *)
(* ===================================================================== *)

(** The payloads handed to the transport so far, oldest first. *)
Definition sent_payloads (w : World) : list UpValue :=
  match webSocket w with
  | Some ws => sendCalls ws
  | None => []
  end.

(** The bytes the transport still buffers. *)
Definition buffered (w : World) : N :=
  match webSocket w with
  | Some ws => bufferedAmount ws
  | None => 0%N
  end.

(** The executions of the teardown so far, with their reasons. *)
Definition teardown_runs (w : World) : list Value :=
  match this w with
  | Some i =>
      match manager i with
      | Some m => teardownRuns m
      | None => []
      end
  | None => []
  end.

(** The promise of the close, once the close has started. *)
Definition close_promise (w : World) : option (nat * PromiseState) :=
  match this w with
  | Some i => closePromise i
  | None => None
  end.

(** The three ways a close is asked for, with the reason each one gives. *)
Definition close_trigger (e : Event) : option Value :=
  match e with
  | CallClose why => Some why
  | TransportClose event => Some (WebSocketError_fromCloseEvent event)
  | TransportError => Some WebSocketError_new
  | _ => None
  end.

Definition is_send (e : Event) : bool :=
  match e with
  | CallSend _ _ => true
  | _ => false
  end.

(** The state of the promise [send] returned as its [t]-th. *)
Definition send_state (t : nat) (w : World) : option SendState :=
  t_state <$> sends w !! t.

(** The invocations of the listener registered as [k]. *)
Definition deliveries_to (k : nat) (w : World) : list Delivery :=
  List.filter (fun d => Nat.eqb (d_listener d) k) (deliveries w).

(** The transport's listeners. *)
Definition listeners_of (w : World) : list Listener :=
  match webSocket w with
  | Some ws => listeners ws
  | None => []
  end.

(** Binary messages are delivered as ArrayBuffers: the transport's binary
    type is 'arraybuffer' and every value handed to a listener so far is what
    that binary type makes of a frame. *)
Definition arraybuffer_only (w : World) : Prop :=
  (forall ws, webSocket w = Some ws -> binaryType ws = arraybuffer) /\
  Forall (fun d => exists f, d_data d = frame_data arraybuffer f) (deliveries w).

(* ===================================================================== *)
(** ** Example worlds                                                     *)
(* ===================================================================== *)

(** No caller signal has fired. *)
Definition quiet : nat -> AbortSignal := fun _ => fresh_signal.

(** A transport a caller created and closed before wrapping it. *)
Definition closed_socket : WebSocket := mkWebSocket CLOSED blob 0 [] [] [].

(** A transport a caller holds open. *)
Definition open_socket : WebSocket := mkWebSocket OPEN blob 0 [] [] [].

(** A caller wraps an open transport in a resource. *)
Definition wrapped : World := exec WebSocketResource_new (world_with open_socket quiet).

(** A well-formed address. *)
Definition chat : Url := WellFormed "wss://chat.example.com".

(** The caller's signal 0 has fired with the reason "stop". *)
Definition stopped : nat -> AbortSignal :=
  fun id => if Nat.eqb id 0 then mkAbortSignal true (VString "stop") else fresh_signal.

(** A caller sends "ping" with its signal 0; the four bytes reach the
    network; then the caller aborts the signal with the reason "stop". *)
Definition drained_then_aborted : World :=
  run [CallSend (UpText "ping") (Some 0); TransportFlush 4;
       Abort 0 (VString "stop")] wrapped.

(** A caller sends "ping" without a signal; the four bytes reach the
    network; then the resource is closed. *)
Definition drained_then_closed : World :=
  run [CallSend (UpText "ping") None; TransportFlush 4; CallClose VUndefined] wrapped.

(** The listener invocations an event causes: a message that arrives on an
    open transport is handed to every 'message' listener. *)
Definition delivered (e : Event) (w : World) : list Delivery :=
  match e, webSocket w with
  | TransportMessage f, Some ws =>
      match readyState ws with
      | OPEN =>
          List.map (delivery_to (frame_data (binaryType ws) f))
            (List.filter (fun l => EventType_eqb (l_type l) ev_message) (listeners ws))
      | _ => []
      end
  | _, _ => []
  end.

(** A caller sends "ping", a message arrives, the caller sends "pong". *)
Definition ping_pong : World :=
  exec (send (UpText "pong") None)
    (run [TransportMessage (TextFrame "hello")]
       (exec (send (UpText "ping") None) wrapped)).

(** The registration [L] made by [listen] is, in [w], the only listener
    that ever carried its identity. *)
Definition tracks (L : Listener) (w : World) : Prop :=
  resource_inv w /\
  l_id L < next_id w /\
  forall l, l ∈ listeners_of w -> l_id l = l_id L -> l = L.

(** A caller listens with callback 7 and its signal 0; a message arrives;
    the caller aborts the signal; a second message arrives. *)
Definition heard_once : World :=
  run [CallListen 7 (Some 0); TransportMessage (TextFrame "one");
       Abort 0 (VString "stop"); TransportMessage (TextFrame "two")] wrapped.

(** The scenario of the repository's first test: open, listen, send 'test',
    and the server answers. *)
Definition echoed : World :=
  run [TransportOpen; CallListen 7 None; CallSend (UpText "test") None;
       TransportFlush 4; TransportMessage (TextFrame "server->test");
       TimerFires 0; Resume 0]
      (exec (open chat [] None) (empty_world quiet)).

(** The peer closes the connection, then the caller sends. *)
Definition peer_closed : World :=
  run [TransportOpen; TransportClose (mkCloseEvent 1000 "bye");
       CallSend (UpText "late") None]
      (exec (open chat [] None) (empty_world quiet)).

(* ===================================================================== *)
(** ** Further observations of the transport                              *)
(* ===================================================================== *)

(** The close operations invoked on the transport so far, oldest first,
    each with the code and the text it was given. *)
Definition close_calls (w : World) : list (option Z * option string) :=
  match webSocket w with
  | Some ws => closeCalls ws
  | None => []
  end.

(** The transport's [readyState] and [binaryType], when a transport
    exists. *)
Definition ready_state (w : World) : option ReadyState :=
  readyState <$> webSocket w.

Definition binary_type (w : World) : option BinaryType :=
  binaryType <$> webSocket w.

(** The transport's 'message' listeners, in registration order. *)
Definition message_listeners (w : World) : list Listener :=
  List.filter (fun l => EventType_eqb (l_type l) ev_message) (listeners_of w).

(** What a registration is, apart from its identity: the event type, the
    closure and the signals it is scoped to. *)
Definition registration (l : Listener) : EventType * Handler * list SigRef :=
  (l_type l, l_handler l, l_signal l).

(** The payloads of the [send] calls among [evs], in call order. *)
Definition payloads_of (evs : list Event) : list UpValue :=
  omap (fun e => match e with
                 | CallSend payload _ => Some payload
                 | _ => None
                 end) evs.

(** Whether [e] is not a [send] called with a signal of the caller's. *)
Definition unsigned (e : Event) : bool :=
  match e with
  | CallSend _ (Some _) => false
  | _ => true
  end.



(** Whether a [send] has settled. *)
Definition settled (st : SendState) : bool :=
  match st with
  | Awaiting _ => false
  | SendFulfilled | SendRejected _ => true
  end.

(** A caller aborts its signal 0 while [open] waits, then the connection is
    established all the same. *)
Definition abandoned : World :=
  run [Abort 0 (VString "stop"); TransportOpen]
      (exec (open chat [] (Some 0)) (empty_world quiet)).

(** A transport a caller holds open, with two payloads of four bytes
    handed over and nothing flushed yet. *)
Definition two_pending : World :=
  run [CallSend (UpText "ping") None; CallSend (UpText "pong") None] wrapped.
(* ===================================================================== *)
(** * Properties                                                          *)
(* ===================================================================== *)

Ltac unfold_m :=
  unfold mbind, M_bind, bind, mret, M_ret, ret, throw, get, modify, exec in *.

(** ** Construction *)

Section Construction.

Variable w : World.
Variable ws : WebSocket.
Hypothesis Hws : webSocket w = Some ws.

Lemma new_not_open :
  readyState ws <> OPEN ->
  WebSocketResource_new w
  = (Throw (VError "WebSocket not open."),
     set_this (Some (mkInstance fresh_signal None None)) w).
Proof.
  intros Hne. unfold WebSocketResource_new, Resource_super, the_webSocket.
  unfold_m. simpl. rewrite Hws.
  destruct (readyState ws); simpl; congruence.
Qed.

Lemma new_open :
  readyState ws = OPEN ->
  WebSocketResource_new w
  = (Return tt,
     mkWorld
       (Some (set_listeners
          (listeners ws
             ++ [mkListener (next_id w) ev_close closeOnClose [CloseSignal];
                 mkListener (S (next_id w)) ev_error closeOnError [CloseSignal]])
          ws))
       (signals w) (abortListeners w)
       (Some (mkInstance fresh_signal None
                (Some (mkCloseStack [closeTransport] [] None))))
       (opening w) (sends w) (deliveries w) (S (S (next_id w)))).
Proof.
  intros Hop.
  unfold WebSocketResource_new, Resource_super, the_webSocket, addEventListener,
    update_webSocket, the_webSocket, CloseStack_new, addTeardown, update_manager,
    the_instance.
  unfold_m. repeat (progress (simpl; rewrite ?Hws, ?Hop)).
  rewrite <- (app_assoc (listeners ws)). reflexivity.
Qed.

End Construction.


(** ** Lists of listeners *)

Lemma filter_subscriptions_type sigs subs ty :
  Forall (subscription sigs) subs ->
  List.filter (fun l => EventType_eqb (l_type l) ty) subs
  = match ty with ev_message => subs | _ => [] end.
Proof.
  induction 1 as [|l subs [Hty _] _ IH]; [now destruct ty|].
  simpl. rewrite Hty, IH. now destruct ty.
Qed.

Lemma filter_subscriptions_close sigs subs :
  Forall (subscription sigs) subs ->
  List.filter (fun l => negb (scoped_to CloseSignal l)) subs = [].
Proof.
  induction 1 as [|l subs (_ & _ & Hsig) _ IH]; [reflexivity|].
  simpl. rewrite IH. unfold scoped_to.
  destruct Hsig as [-> | (id & -> & _)]; reflexivity.
Qed.

Lemma elem_of_map_filter {A B} (g : A -> B) (f : A -> bool) (l : list A) x :
  x ∈ List.map g (List.filter f l) -> x ∈ List.map g l.
Proof.
  rewrite !list_elem_of_In, !List.in_map_iff. intros (a & <- & Ha).
  apply List.filter_In in Ha. exists a. tauto.
Qed.

Lemma NoDup_map_filter {A B} (g : A -> B) (f : A -> bool) (l : list A) :
  NoDup (List.map g l) -> NoDup (List.map g (List.filter f l)).
Proof.
  induction l as [|a l IH]; simpl; intros Hnd; [constructor|].
  inversion Hnd as [|? ? Hnotin Hnd']; subst.
  destruct (f a); simpl; auto.
  constructor; auto. intros Hin. apply Hnotin. eauto using elem_of_map_filter.
Qed.

Lemma Forall_map_filter {A B} (P : B -> Prop) (g : A -> B) (f : A -> bool) l :
  Forall P (List.map g l) -> Forall P (List.map g (List.filter f l)).
Proof.
  rewrite !Forall_forall. eauto using elem_of_map_filter.
Qed.

Lemma subscription_after_abort sigs id why subs :
  Forall (subscription sigs) subs ->
  Forall (subscription
            (fun j => if Nat.eqb j id then mkAbortSignal true why else sigs j))
         (List.filter (fun l => negb (scoped_to (CallerSignal id) l)) subs).
Proof.
  induction 1 as [|l subs (Hty & Hh & Hsig) _ IH]; simpl; [constructor|].
  destruct (scoped_to (CallerSignal id) l) eqn:Hsc; simpl; [exact IH|].
  constructor; [|exact IH]. split; [exact Hty|]. split; [exact Hh|].
  destruct Hsig as [Hs | (id' & Hs & Hab)]; [now left|].
  right. exists id'. split; [exact Hs|].
  unfold scoped_to in Hsc. rewrite Hs in Hsc. simpl in Hsc.
  destruct (Nat.eqb id id') eqn:E; [discriminate|].
  rewrite Nat.eqb_sym, E. exact Hab.
Qed.

Ltac world_simpl :=
  unfold set_webSocket, set_signals, set_abortListeners, set_this, set_opening,
    set_sends, set_deliveries, set_next_id, set_readyState, set_binaryType,
    set_bufferedAmount, set_listeners in *;
  cbn [webSocket signals abortListeners this opening sends deliveries next_id
       readyState binaryType bufferedAmount listeners sendCalls closeCalls
       closeSignal closePromise manager teardowns teardownRuns stackClosed
       aborted reason fst snd] in *.

Lemma registered_elem_of (l : Listener) ws w :
  webSocket w = Some ws -> l ∈ listeners ws -> registered (l_id l) w = true.
Proof.
  intros Hws Hin. unfold registered. rewrite Hws.
  apply List.existsb_exists. exists l. split; [now apply list_elem_of_In|].
  apply Nat.eqb_refl.
Qed.

(** A message reaches every subscription, in registration order. *)
Lemma deliver_fold data (ls : list Listener) : forall w ws,
  webSocket w = Some ws ->
  (forall l, l ∈ ls -> l ∈ listeners ws /\ exists cb, l_handler l = forwardMessage cb) ->
  fold_left
    (fun w' l => if registered (l_id l) w'
                 then exec (invoke l (MessageEvent data)) w' else w')
    ls w
  = set_deliveries (deliveries w ++ List.map (delivery_to data) ls) w.
Proof.
  induction ls as [|l ls IH]; intros w ws Hws Hall; simpl.
  - rewrite app_nil_r. now destruct w.
  - destruct (Hall l) as [Hin [cb Hcb]]; [left|].
    rewrite (registered_elem_of l ws w Hws Hin).
    unfold exec, invoke. rewrite Hcb. unfold_m. cbn [snd].
    erewrite IH; [| exact Hws | intros l' Hl'; apply Hall; now right].
    world_simpl. unfold delivery_to at 2, callback_of. rewrite Hcb.
    now rewrite <- app_assoc.
Qed.

(** ** The operations in the world of an open resource *)

Section OpenResource.

Variables (rs : ReadyState) (bt : BinaryType) (ba : N) (idc ide : nat)
          (subs : list Listener) (scs : list UpValue)
          (ccs : list (option Z * option string))
          (sigs : nat -> AbortSignal) (op : Promise)
          (tasks : list SendTask) (dels : list Delivery) (nid : nat).
Hypothesis Hsubs : Forall (subscription sigs) subs.

Let ws := mkWebSocket rs bt ba (closeListener idc :: errorListener ide :: subs) scs ccs.
Let W := mkWorld (Some ws) sigs [] (Some instance_open) op tasks dels nid.

Lemma close_open_resource why :
  Resource_close why W
  = (Return nid,
     mkWorld (Some (torn_down why (mkWebSocket rs bt ba [] scs ccs)))
       sigs [] (Some (instance_closed why nid)) op
       (List.map (abort_task CloseSignal why) tasks) dels (S nid)).
Proof.
  unfold Resource_close, close_start, close_finish, CloseStack_close, the_instance.
  unfold_m. simpl. unfold abort_dependents. simpl.
  rewrite (filter_subscriptions_close sigs subs Hsubs).
  unfold update_manager, the_instance, teardown, the_webSocket, WebSocket_close, the_webSocket.
  unfold_m. simpl.
  destruct rs; simpl; destruct why; reflexivity.
Qed.

Lemma filter_listeners_type ty :
  List.filter (fun l => EventType_eqb (l_type l) ty) (listeners ws)
  = match ty with
    | ev_open => []
    | ev_close => [closeListener idc]
    | ev_error => [errorListener ide]
    | ev_message => subs
    end.
Proof.
  simpl. rewrite (filter_subscriptions_type sigs subs ty Hsubs).
  now destruct ty.
Qed.

Lemma dispatch_close_open_resource event :
  dispatch (CloseEv event) W
  = exec (Resource_close (WebSocketError_fromCloseEvent event)) W.
Proof.
  unfold dispatch. simpl webSocket. cbv iota. rewrite filter_listeners_type.
  simpl. assert (registered idc W = true) as ->
    by (unfold registered; simpl; now rewrite Nat.eqb_refl).
  unfold exec, invoke, closeListener. cbn [l_handler]. unfold_m.
  now destruct (Resource_close _ W) as [[]].
Qed.

Lemma dispatch_error_open_resource :
  dispatch ErrorEvent W = exec (Resource_close WebSocketError_new) W.
Proof.
  unfold dispatch. simpl webSocket. cbv iota. rewrite filter_listeners_type.
  simpl. assert (registered ide W = true) as ->
    by (unfold registered; simpl; now rewrite Nat.eqb_refl, orb_true_r).
  unfold exec, invoke, errorListener. cbn [l_handler]. unfold_m.
  now destruct (Resource_close _ W) as [[]].
Qed.

Lemma dispatch_message_open_resource data :
  dispatch (MessageEvent data) W
  = set_deliveries (dels ++ List.map (delivery_to data) subs) W.
Proof.
  unfold dispatch. simpl webSocket. cbv iota. rewrite filter_listeners_type.
  cbn [event_type]. erewrite deliver_fold; [reflexivity | reflexivity |].
  intros l Hl. split; [simpl; now do 2 right|].
  rewrite Forall_forall in Hsubs. now destruct (Hsubs l Hl) as (_ & ? & _).
Qed.

Lemma abort_open_resource id why :
  abort_signal id why W
  = if aborted (sigs id) then W
    else mkWorld
           (Some (mkWebSocket rs bt ba
              (closeListener idc :: errorListener ide
                 :: List.filter (fun l => negb (scoped_to (CallerSignal id) l)) subs)
              scs ccs))
           (fun j => if Nat.eqb j id then mkAbortSignal true why else sigs j)
           [] (Some instance_open) op
           (List.map (abort_task (CallerSignal id) why) tasks) dels nid.
Proof.
  unfold abort_signal. simpl. now destruct (aborted (sigs id)).
Qed.

End OpenResource.

(** ** The operations in the world of a closed resource *)

Section ClosedResource.

Variables (rs : ReadyState) (bt : BinaryType) (ba : N)
          (scs : list UpValue) (ccs : list (option Z * option string))
          (sigs : nat -> AbortSignal) (why : Value) (p : nat) (op : Promise)
          (tasks : list SendTask) (dels : list Delivery) (nid : nat).

Let W := mkWorld (Some (mkWebSocket rs bt ba [] scs ccs)) sigs []
           (Some (instance_closed why p)) op tasks dels nid.

Lemma close_closed_resource why' : Resource_close why' W = (Return p, W).
Proof. reflexivity. Qed.

Lemma dispatch_closed_resource e : dispatch e W = W.
Proof. reflexivity. Qed.

Lemma abort_closed_resource id why' :
  abort_signal id why' W
  = if aborted (sigs id) then W
    else mkWorld (Some (mkWebSocket rs bt ba [] scs ccs))
           (fun j => if Nat.eqb j id then mkAbortSignal true why' else sigs j)
           [] (Some (instance_closed why p)) op
           (List.map (abort_task (CallerSignal id) why') tasks) dels nid.
Proof.
  unfold abort_signal. simpl. now destruct (aborted (sigs id)).
Qed.

End ClosedResource.

(** ** The methods *)

Section Methods.

Variable w : World.
Variable ws : WebSocket.
Hypothesis Hws : webSocket w = Some ws.

Lemma send_loop_eq signal :
  send_loop signal w = (Return (loop_state signal ws), w).
Proof.
  unfold send_loop, the_webSocket, loop_state. unfold_m. rewrite Hws.
  now destruct (0 <? bufferedAmount ws)%N.
Qed.

Lemma send_resume_eq c signal o :
  async (send_resume c signal o) w
  = (Return (resume_state c signal o w ws), w).
Proof.
  unfold async. destruct o as [|error]; simpl.
  - now rewrite send_loop_eq.
  - unfold send_catch, the_webSocket. unfold_m.
    destruct (caller_aborted w c); [reflexivity|]. rewrite Hws. simpl.
    destruct (0 <? bufferedAmount ws)%N eqn:E; [reflexivity|].
    rewrite send_loop_eq. unfold loop_state. now rewrite E.
Qed.

Lemma send_eq payload c :
  closed w = false ->
  readyState ws <> CONNECTING ->
  send payload c w
  = (Return (length (sends w)),
     set_sends
       (sends w ++ [mkSendTask c (task_signal w c)
                      (loop_state (task_signal w c) (sent payload ws))])
       (set_webSocket (Some (sent payload ws)) w)).
Proof.
  intros Hcl Hrs. unfold send, runTask. unfold_m. rewrite Hcl.
  unfold async, send_task, WebSocket_send, the_webSocket. unfold_m.
  rewrite Hws. fold (task_signal w c).
  destruct (readyState ws) eqn:E; [congruence| | |].
  all: unfold send_loop, the_webSocket; unfold_m; world_simpl;
    unfold loop_state, sent; rewrite E; world_simpl;
    now destruct (0 <? bufferedAmount ws + byteLength payload)%N.
Qed.

Lemma send_closed_eq payload c :
  closed w = true ->
  send payload c w
  = (Return (length (sends w)),
     set_sends (sends w ++ [mkSendTask c (closeSignalOf w) (SendRejected VClosedError)]) w).
Proof.
  intros Hcl. unfold send, runTask. unfold_m. now rewrite Hcl.
Qed.

Lemma listen_aborted_eq cb id :
  aborted (signals w id) = true ->
  listen cb (Some id) w = (Return tt, w).
Proof. intros Hab. unfold listen. unfold_m. simpl. now rewrite Hab. Qed.

Lemma listen_closed_eq cb c :
  caller_aborted w c = false ->
  closed w = true ->
  listen cb c w = (Throw VClosedError, w).
Proof.
  intros Hab Hcl. unfold listen, throwIfClosed. unfold_m.
  now rewrite Hab, Hcl.
Qed.

Lemma listen_eq cb c :
  caller_aborted w c = false ->
  closed w = false ->
  listen cb c w
  = (Return tt,
     set_next_id (S (next_id w))
       (set_webSocket
          (Some (set_listeners (listeners ws ++ [subscribe (next_id w) cb c]) ws))
          w)).
Proof.
  intros Hab Hcl. unfold listen, throwIfClosed, addEventListener,
    update_webSocket, the_webSocket. unfold_m.
  rewrite Hab, Hcl. unfold closed in Hcl.
  destruct c as [id|]; simpl in *; rewrite ?Hcl, ?Hab; simpl;
    rewrite Hws; reflexivity.
Qed.

End Methods.

(** ** Steps of a world with a resource *)

Lemma NoDup_ids_snoc (ids : list nat) (n : nat) :
  NoDup ids -> Forall (fun i => i < n) ids -> NoDup (ids ++ [n]).
Proof.
  intros Hnd Hlt. apply NoDup_app. split; [exact Hnd|]. split.
  - intros x Hx Hx'. apply list_elem_of_singleton in Hx'. subst.
    rewrite Forall_forall in Hlt. specialize (Hlt _ Hx). lia.
  - apply NoDup_singleton.
Qed.

Lemma Forall_lt_S (ids : list nat) (n : nat) :
  Forall (fun i => i < n) ids -> Forall (fun i => i < S n) ids.
Proof. intros H. eapply Forall_impl; [exact H|]. intros; simpl in *; lia. Qed.

Lemma resource_inv_step e w : resource_inv w -> resource_inv (step e w).
Proof.
  intros Hinv. destruct Hinv.
  { destruct e; cbn [step webSocket readyState sends].
  all: try (constructor; assumption).
  - (* Abort *)
    rewrite abort_open_resource. destruct (aborted (sigs id)); [now constructor|].
    constructor; auto using subscription_after_abort.
    + inversion H1 as [|? ? Hn1 H1']; subst. inversion H1' as [|? ? Hn2 H1'']; subst.
      constructor; [|constructor].
      * rewrite elem_of_cons in *. intros [?|?]; apply Hn1; eauto using elem_of_map_filter.
      * eauto using elem_of_map_filter.
      * now apply NoDup_map_filter.
    + inversion H2 as [|? ? ? H2']; subst. inversion H2' as [|? ? ? H2'']; subst.
      constructor; [|constructor]; auto using Forall_map_filter.
  - (* TransportOpen *)
    destruct rs; try congruence; now constructor.
  - (* TransportAdvance *)
    destruct (_ && _) eqn:E; [|now constructor].
    world_simpl. constructor; auto. destruct r; simpl in E; discriminate.
  - (* TransportError *)
    rewrite dispatch_error_open_resource by assumption.
    unfold exec. rewrite close_open_resource by assumption. cbn [snd].
    destruct rs; [congruence|..]; constructor; (congruence || lia).
  - (* TransportClose *)
    world_simpl. rewrite dispatch_close_open_resource by assumption.
    unfold exec. rewrite close_open_resource by assumption.
    constructor; (discriminate || lia).
  - (* TransportMessage *)
    destruct rs; try now constructor.
    rewrite dispatch_message_open_resource by assumption. now constructor.
  - (* TimerFires *)
    destruct (tasks !! task) as [t|]; [|now constructor].
    destruct (t_state t) as [[o|]| |]; now constructor.
  - (* Resume *)
    destruct (tasks !! task) as [t|]; [|now constructor].
    destruct (t_state t) as [[o|]| |]; try now constructor.
    erewrite send_resume_eq by reflexivity. now constructor.
  - (* CallClose *)
    cbn [has_resource this instance_open manager]. unfold exec.
    rewrite close_open_resource by assumption. cbn [snd].
    destruct rs; [congruence|..]; constructor; (congruence || lia).
  - (* CallSend *)
    cbn [has_resource this instance_open manager]. unfold exec.
    erewrite send_eq; [|reflexivity|reflexivity|exact H]. now constructor.
  - (* CallListen *)
    cbn [has_resource this instance_open manager]. unfold exec.
    destruct (caller_aborted (mkWorld (Some (mkWebSocket rs bt ba
                (closeListener idc :: errorListener ide :: subs) scs ccs))
                sigs [] (Some instance_open) op tasks dels nid) signal) eqn:Hab.
    + destruct signal as [id|]; [|discriminate].
      erewrite listen_aborted_eq by exact Hab. now constructor.
    + erewrite listen_eq; [|reflexivity|exact Hab|reflexivity].
      world_simpl. cbn [app]. constructor; auto.
      * apply Forall_app. split; [assumption|]. constructor; [|constructor].
        split; [reflexivity|]. split; [now exists listener|].
        destruct signal as [id|]; [right; now exists id | now left].
      * rewrite map_app. change (NoDup ((idc :: ide :: List.map l_id subs) ++ [nid])).
        now apply NoDup_ids_snoc.
      * rewrite map_app. change (Forall (fun i => i < S nid)
                                   ((idc :: ide :: List.map l_id subs) ++ [nid])).
        apply Forall_app. split; [now apply Forall_lt_S|].
        constructor; [lia|constructor].
  }
  destruct e; cbn [step webSocket readyState sends].
  all: try (constructor; assumption).
  all: try (rewrite abort_closed_resource; destruct (aborted (sigs id)); now constructor).
  all: try (destruct rs; try congruence; (now constructor)).
  all: try (destruct (_ && _) eqn:E; [|now constructor];
            world_simpl; constructor; auto; destruct r; simpl in E; discriminate).
  all: try (destruct (tasks !! task) as [t|]; [|now constructor];
            destruct (t_state t) as [[o|]| |]; try (now constructor);
            erewrite send_resume_eq by reflexivity; now constructor).
  all: cbn [has_resource this instance_closed manager]; unfold exec.
  all: try (now constructor).
  destruct (caller_aborted (mkWorld (Some (mkWebSocket rs bt ba [] scs ccs))
                sigs [] (Some (instance_closed why p)) op tasks dels nid) signal) eqn:Hab.
  - destruct signal as [id|]; [|discriminate].
    erewrite listen_aborted_eq by exact Hab. now constructor.
  - erewrite listen_closed_eq; [|exact Hab|reflexivity]. now constructor.
Qed.

(** Case analysis on one step of a world with a resource: every case is
    brought to the explicit world the step produces. *)
Ltac step_rs :=
  match goal with
  | H : ?rs <> CONNECTING |- context [match ?rs with CONNECTING => _ | _ => _ end] =>
      destruct rs; [congruence | | |]
  | |- context [match ?rs with OPEN => _ | _ => _ end] => destruct rs
  end.

Ltac step_task :=
  match goal with
  | |- context [match ?tasks !! ?t with Some _ => _ | None => _ end] =>
      let task := fresh "task" in
      let Ht := fresh "Htask" in
      let Hst := fresh "Hstate" in
      destruct (tasks !! t) as [task|] eqn:Ht;
      [destruct (t_state task) as [[?|]| |] eqn:Hst|]
  end.

Ltac step_listen :=
  match goal with
  | |- context [listen ?cb ?c ?w] =>
      let Hab := fresh "Hab" in
      destruct (caller_aborted w c) eqn:Hab;
      [ destruct c; [|discriminate Hab];
        erewrite listen_aborted_eq by exact Hab
      | first [ erewrite listen_eq; [|reflexivity|exact Hab|reflexivity]
              | erewrite listen_closed_eq; [|exact Hab|reflexivity] ] ]
  end.

Ltac step_cases Hinv e :=
  destruct Hinv; destruct e;
  cbn [step webSocket readyState sends has_resource this instance_open
       instance_closed manager];
  rewrite ?abort_open_resource, ?abort_closed_resource;
  try step_rs; try step_task;
  rewrite ?dispatch_error_open_resource, ?dispatch_message_open_resource by assumption;
  world_simpl;
  rewrite ?dispatch_close_open_resource, ?dispatch_closed_resource by assumption;
  try (erewrite send_resume_eq by reflexivity);
  unfold exec;
  rewrite ?close_open_resource, ?close_closed_resource by assumption;
  try (erewrite send_eq; [|reflexivity|reflexivity|assumption]);
  try (erewrite send_closed_eq by reflexivity);
  try step_listen;
  world_simpl.

Lemma resource_step_opening e w :
  resource_inv w -> opening (step e w) = opening w.
Proof.
  intros Hinv. step_cases Hinv e.
  all: try reflexivity.
  all: try (destruct (aborted (sigs id)); reflexivity).
  all: try (destruct (_ && _); reflexivity).
Qed.

(** ** The establishment race *)

Section Race.

Variable signal : option nat.

Lemma open_aborted url protocols w id :
  signal = Some id ->
  aborted (signals w id) = true ->
  open url protocols signal w
  = (Return tt, set_opening (mkPromise (Rejected (reason (signals w id))) 1) w).
Proof.
  intros -> Hab. unfold open, Promise_new, executor, throwIfAborted.
  unfold_m. simpl. now rewrite Hab.
Qed.

Lemma open_malformed text protocols sigs :
  caller_aborted (empty_world sigs) signal = false ->
  open (Malformed text) protocols signal (empty_world sigs)
  = (Return tt,
     set_opening (mkPromise (Rejected (VDOMException "SyntaxError")) 1)
                 (empty_world sigs)).
Proof.
  intros Hab. unfold open, Promise_new, executor, throwIfAborted.
  unfold_m. destruct signal as [id|]; simpl in *; now rewrite ?Hab.
Qed.

Lemma open_racing href protocols sigs :
  caller_aborted (empty_world sigs) signal = false ->
  open (WellFormed href) protocols signal (empty_world sigs)
  = (Return tt,
     mkWorld (Some (mkWebSocket CONNECTING arraybuffer 0 (raceListeners signal) [] []))
       sigs (raceAbortListeners signal) None (mkPromise Pending 0) [] [] 3).
Proof.
  intros Hab. unfold open, Promise_new, executor, throwIfAborted.
  unfold_m. destruct signal as [id|]; simpl in *; now rewrite ?Hab.
Qed.

Variables (rs : ReadyState) (ba : N) (sigs : nat -> AbortSignal).

Let W := mkWorld (Some (mkWebSocket rs arraybuffer ba (raceListeners signal) [] []))
           sigs (raceAbortListeners signal) None (mkPromise Pending 0) [] [] 3.

Lemma end_racing :
  end_ signal W
  = (Return tt,
     mkWorld (Some (mkWebSocket rs arraybuffer ba [] [] []))
       sigs [] None (mkPromise Pending 0) [] [] 3).
Proof.
  unfold end_, signal_removeEventListener, removeEventListener, update_webSocket,
    the_webSocket. unfold_m.
  unfold same_listener.
  destruct signal as [id|]; repeat (simpl; rewrite ?Nat.eqb_refl); reflexivity.
Qed.

Let Wend := mkWorld (Some (mkWebSocket rs arraybuffer ba [] [] []))
              sigs [] None (mkPromise Pending 0) [] [] 3.

Lemma end_ended : end_ signal Wend = (Return tt, Wend).
Proof.
  unfold end_, signal_removeEventListener, removeEventListener, update_webSocket,
    the_webSocket. unfold_m. now destruct signal.
Qed.

Lemma reject_racing error :
  exec (end_ signal;; reject signal error) W
  = mkWorld (Some (mkWebSocket rs arraybuffer ba [] [] []))
      sigs [] None (mkPromise (Rejected error) 1) [] [] 3.
Proof.
  unfold reject, exec. unfold_m. rewrite end_racing. fold Wend.
  now rewrite end_ended.
Qed.

Lemma onClose_racing event :
  exec (do_onClose signal event) W
  = mkWorld (Some (mkWebSocket rs arraybuffer ba [] [] []))
      sigs [] None
      (mkPromise (Rejected (WebSocketError_fromCloseEvent event)) 1) [] [] 3.
Proof. apply reject_racing. Qed.

Lemma onError_racing :
  exec (do_onError signal) W
  = mkWorld (Some (mkWebSocket rs arraybuffer ba [] [] []))
      sigs [] None (mkPromise (Rejected WebSocketError_new) 1) [] [] 3.
Proof. apply reject_racing. Qed.

Lemma onOpen_racing :
  rs = OPEN ->
  exec (do_onOpen signal) W
  = mkWorld
      (Some (mkWebSocket OPEN arraybuffer ba
               [closeListener 3; errorListener 4] [] []))
      sigs [] (Some instance_open) (mkPromise Fulfilled 1) [] [] 5.
Proof.
  intros Hrs. unfold do_onOpen, resolve, exec. unfold_m.
  rewrite end_racing. erewrite new_open by (reflexivity || exact Hrs).
  unfold end_, signal_removeEventListener, removeEventListener, update_webSocket,
    the_webSocket. unfold_m. subst rs. now destruct signal.
Qed.

End Race.

Lemma onAbort_racing id rs ba sigs :
  exec (do_onAbort (Some id))
    (mkWorld (Some (mkWebSocket rs arraybuffer ba (raceListeners (Some id)) [] []))
       sigs (raceAbortListeners (Some id)) None (mkPromise Pending 0) [] [] 3)
  = mkWorld (Some (mkWebSocket rs arraybuffer ba [] [] []))
      sigs [] None (mkPromise (Rejected (reason (sigs id))) 1) [] [] 3.
Proof.
  unfold do_onAbort, reject, exec. unfold_m.
  rewrite end_racing. cbn [signals]. now rewrite end_ended.
Qed.

Section RaceSteps.

Variables (signal : option nat) (rs : ReadyState) (ba : N)
          (sigs : nat -> AbortSignal).

Let W := mkWorld (Some (mkWebSocket rs arraybuffer ba (raceListeners signal) [] []))
           sigs (raceAbortListeners signal) None (mkPromise Pending 0) [] [] 3.

Lemma dispatch_open_racing :
  rs = OPEN ->
  dispatch OpenEvent W
  = mkWorld
      (Some (mkWebSocket OPEN arraybuffer ba
               [closeListener 3; errorListener 4] [] []))
      sigs [] (Some instance_open) (mkPromise Fulfilled 1) [] [] 5.
Proof. intros Hrs. rewrite <- (onOpen_racing signal rs ba sigs Hrs). reflexivity. Qed.

Lemma dispatch_close_racing event :
  dispatch (CloseEv event) W
  = mkWorld (Some (mkWebSocket rs arraybuffer ba [] [] []))
      sigs [] None
      (mkPromise (Rejected (WebSocketError_fromCloseEvent event)) 1) [] [] 3.
Proof. rewrite <- (onClose_racing signal rs ba sigs event). reflexivity. Qed.

Lemma dispatch_error_racing :
  dispatch ErrorEvent W
  = mkWorld (Some (mkWebSocket rs arraybuffer ba [] [] []))
      sigs [] None (mkPromise (Rejected WebSocketError_new) 1) [] [] 3.
Proof. rewrite <- (onError_racing signal rs ba sigs). reflexivity. Qed.

Lemma abort_racing id why :
  abort_signal id why W
  = if aborted (sigs id) then W
    else
      let sigs' := fun j => if Nat.eqb j id then mkAbortSignal true why else sigs j in
      if option_nat_eqb signal (Some id)
      then mkWorld (Some (mkWebSocket rs arraybuffer ba [] [] []))
             sigs' [] None (mkPromise (Rejected why) 1) [] [] 3
      else mkWorld (Some (mkWebSocket rs arraybuffer ba (raceListeners signal) [] []))
             sigs' (raceAbortListeners signal) None (mkPromise Pending 0) [] [] 3.
Proof.
  unfold W, abort_signal. simpl. destruct (aborted (sigs id)); [reflexivity|].
  unfold abort_dependents. simpl.
  destruct signal as [id'|]; simpl; [|reflexivity].
  destruct (Nat.eqb id' id) eqn:E; [|reflexivity].
  apply Nat.eqb_eq in E. subst id'. simpl.
  unfold abort_registered. simpl. rewrite !Nat.eqb_refl. simpl.
  world_simpl. rewrite onAbort_racing. simpl. now rewrite Nat.eqb_refl.
Qed.

End RaceSteps.

Lemma won_first ba sigs :
  won (mkWorld
         (Some (mkWebSocket OPEN arraybuffer ba
                  [closeListener 3; errorListener 4] [] []))
         sigs [] (Some instance_open) (mkPromise Fulfilled 1) [] [] 5).
Proof.
  split; [|reflexivity].
  apply (ResourceOpen OPEN arraybuffer ba 3 4 []); try discriminate.
  - constructor.
  - apply NoDup_ListNoDup. repeat constructor; simpl; intuition lia.
  - repeat constructor; lia.
Qed.

Lemma racing_step signal e w :
  racing signal w ->
  match race_outcome signal e w with
  | Some st =>
      opening (step e w) = mkPromise st 1
      /\ (lost (step e w) \/ (won (step e w) /\ arraybuffer_only (step e w)))
  | None => racing signal (step e w)
  end.
Proof.
  intros [rs ba sigs Hrs Hab]. destruct e; cbn [race_outcome step webSocket readyState
    signals sends has_resource this].
  - (* Abort *)
    rewrite abort_racing. destruct (aborted (sigs id)) eqn:E.
    + rewrite andb_false_r. now constructor.
    + rewrite andb_true_r. cbv zeta. destruct (option_nat_eqb signal (Some id)) eqn:Es.
      * split; [reflexivity|]. left. constructor.
      * constructor; [assumption|].
        destruct signal as [id'|]; [|reflexivity]. simpl in *.
        now rewrite Es.
  - (* TransportOpen *)
    destruct rs; try (now constructor).
    world_simpl. rewrite dispatch_open_racing by reflexivity.
    split; [reflexivity|]. right. split; [apply won_first|].
    split; [intros ws H; now inversion H | constructor].
  - (* TransportAdvance *)
    destruct (_ && _) eqn:E; [|now constructor].
    world_simpl. constructor; [|assumption].
    destruct r; try discriminate; simpl in E; rewrite ?andb_false_r in E; discriminate.
  - (* TransportError *)
    rewrite dispatch_error_racing. split; [reflexivity|]. left. constructor.
  - (* TransportClose *)
    world_simpl. rewrite dispatch_close_racing. split; [reflexivity|]. left. constructor.
  - (* TransportMessage *)
    destruct rs; try (now constructor); congruence.
  - (* TransportFlush *)
    now constructor.
  - now constructor.
  - now constructor.
  - now constructor.
  - now constructor.
  - now constructor.
Qed.

Lemma lost_step e w : lost w -> lost (step e w) /\ opening (step e w) = opening w.
Proof.
  intros [rs ba sigs error]. destruct e; cbn [step webSocket readyState sends
    has_resource this]; try (split; [constructor|reflexivity]).
  - unfold abort_signal. simpl. destruct (aborted (sigs id)); split; (constructor || reflexivity).
  - destruct rs; split; (constructor || reflexivity).
  - destruct (_ && _); split; (constructor || reflexivity).
  - destruct rs; split; (constructor || reflexivity).
Qed.

Lemma unstarted_step e w :
  unstarted w -> unstarted (step e w) /\ opening (step e w) = opening w.
Proof.
  intros [sigs error]. destruct e; cbn [step webSocket readyState sends
    has_resource this]; try (split; [constructor|reflexivity]).
  unfold abort_signal. simpl. destruct (aborted (sigs id)); split; (constructor || reflexivity).
Qed.

Lemma won_step e w : won w -> won (step e w).
Proof.
  intros [Hinv Hop]. split; [now apply resource_inv_step|].
  now rewrite resource_step_opening.
Qed.

Lemma race_inv_step signal e w : race_inv signal w -> race_inv signal (step e w).
Proof.
  intros [Hr | [Hl | [Hu | Hw]]].
  - pose proof (racing_step signal e w Hr) as H.
    destruct (race_outcome signal e w); [|now left].
    destruct H as [_ [Hl | [Hw _]]]; [right; now left | do 3 right; exact Hw].
  - right; left. now apply lost_step.
  - right; right; left. now apply unstarted_step.
  - do 3 right. now apply won_step.
Qed.

Lemma race_inv_run signal evs : forall w,
  race_inv signal w -> race_inv signal (run evs w).
Proof.
  induction evs as [|e evs IH]; intros w Hw; [exact Hw|].
  simpl. apply IH. now apply race_inv_step.
Qed.

(** Once settled, the promise of [open] does not change. *)
Lemma settled_step signal e w :
  race_inv signal w ->
  p_state (opening w) <> Pending ->
  opening (step e w) = opening w.
Proof.
  intros [Hr | [Hl | [Hu | Hw]]] Hne.
  - destruct Hr. now elim Hne.
  - now apply lost_step.
  - now apply unstarted_step.
  - destruct Hw. now apply resource_step_opening.
Qed.

Lemma settled_run signal evs : forall w,
  race_inv signal w ->
  p_state (opening w) <> Pending ->
  opening (run evs w) = opening w.
Proof.
  induction evs as [|e evs IH]; intros w Hw Hne; [reflexivity|].
  simpl. rewrite IH.
  - now apply (settled_step signal).
  - now apply race_inv_step.
  - now rewrite (settled_step signal).
Qed.

(** ** Binary type *)

Lemma torn_down_binaryType why ws : binaryType (torn_down why ws) = binaryType ws.
Proof. unfold torn_down. now destruct (readyState ws). Qed.

Lemma Forall_delivered bt f subs :
  bt = arraybuffer ->
  Forall (fun d => exists f, d_data d = frame_data arraybuffer f)
         (List.map (delivery_to (frame_data bt f)) subs).
Proof.
  intros ->. induction subs; simpl; constructor; auto. now exists f.
Qed.

Lemma resource_step_arraybuffer e w :
  resource_inv w -> arraybuffer_only w -> arraybuffer_only (step e w).
Proof.
  intros Hinv [Hbt Hdel]. revert Hbt Hdel.
  step_cases Hinv e; intros Hbt Hdel.
  all: specialize (Hbt _ eq_refl); cbn [binaryType] in Hbt; subst bt.
  all: try (destruct (aborted (sigs id))).
  all: try (destruct (_ && _)).
  all: split;
    [ let ws' := fresh in let H := fresh in
      intros ws' H; world_simpl; inversion H; subst; cbn [binaryType];
      rewrite ?torn_down_binaryType; reflexivity
    | world_simpl; try assumption ].
  apply Forall_app. split; [assumption|]. now apply Forall_delivered.
Qed.

Lemma racing_arraybuffer signal w : racing signal w -> arraybuffer_only w.
Proof.
  intros [rs ba sigs _ _]. split; [|constructor].
  intros ws H. now inversion H.
Qed.

Lemma lost_arraybuffer w : lost w -> arraybuffer_only w.
Proof.
  intros [rs ba sigs err]. split; [|constructor].
  intros ws H. now inversion H.
Qed.

Lemma racing_step_arraybuffer signal e w :
  racing signal w -> arraybuffer_only (step e w).
Proof.
  intros Hr. pose proof (racing_step signal e w Hr) as H.
  destruct (race_outcome signal e w); [|now apply (racing_arraybuffer signal)].
  destruct H as [_ [Hl | [_ Hab]]]; [now apply lost_arraybuffer | exact Hab].
Qed.

Lemma race_step_arraybuffer signal e w :
  race_inv signal w -> arraybuffer_only w -> arraybuffer_only (step e w).
Proof.
  intros [Hr | [Hl | [Hu | Hw]]] Hab.
  - now apply (racing_step_arraybuffer signal).
  - apply lost_arraybuffer. now apply lost_step.
  - destruct (unstarted_step e w Hu) as [[sigs err] _]. split; [|constructor].
    intros ws H'. discriminate.
  - destruct Hw. now apply resource_step_arraybuffer.
Qed.

Lemma race_run_arraybuffer signal evs : forall w,
  race_inv signal w -> arraybuffer_only w -> arraybuffer_only (run evs w).
Proof.
  induction evs as [|e evs IH]; intros w Hw Hab; [exact Hab|].
  simpl. apply IH; [now apply race_inv_step | now apply (race_step_arraybuffer signal)].
Qed.

(** What [open] leaves behind, whatever its arguments. *)
Lemma open_race_inv url protocols signal sigs :
  race_inv signal (exec (open url protocols signal) (empty_world sigs))
  /\ arraybuffer_only (exec (open url protocols signal) (empty_world sigs)).
Proof.
  unfold exec.
  destruct (caller_aborted (empty_world sigs) signal) eqn:Hab.
  - destruct signal as [id|]; [|discriminate]. simpl in Hab.
    rewrite (open_aborted (Some id) url protocols (empty_world sigs) id eq_refl Hab).
    split; [right; right; left; constructor|].
    split; [intros ws H; discriminate | constructor].
  - destruct url as [href|text].
    + rewrite (open_racing signal href protocols sigs Hab).
      split; [left; constructor; [discriminate|exact Hab]|].
      split; [intros ws H; now inversion H | constructor].
    + rewrite (open_malformed signal text protocols sigs Hab).
      split; [right; right; left; constructor|].
      split; [intros ws H; discriminate | constructor].
Qed.

(** ** Registrations of the race *)

Lemma subscriptions_not_race sigs subs :
  Forall (subscription sigs) subs ->
  List.filter (fun l => is_race_handler (l_handler l)) subs = [].
Proof.
  induction 1 as [|l subs (_ & [cb Hcb] & _) _ IH]; [reflexivity|].
  simpl. now rewrite Hcb, IH.
Qed.

Lemma race_inv_registrations signal w :
  race_inv signal w ->
  race_registrations w
  = match p_state (opening w) with
    | Pending => 3 + match signal with Some _ => 1 | None => 0 end
    | _ => 0
    end.
Proof.
  intros [Hr | [Hl | [Hu | [Hinv Hop]]]].
  - destruct Hr. unfold race_registrations. simpl. now destruct signal.
  - now destruct Hl.
  - now destruct Hu.
  - rewrite Hop. destruct Hinv; unfold race_registrations; simpl; [|reflexivity].
    now rewrite (subscriptions_not_race sigs subs).
Qed.

Lemma race_inv_settles signal w :
  race_inv signal w ->
  p_settles (opening w) = match p_state (opening w) with Pending => 0 | _ => 1 end.
Proof.
  intros [Hr | [Hl | [Hu | [Hinv Hop]]]].
  - now destruct Hr.
  - now destruct Hl.
  - now destruct Hu.
  - now rewrite Hop.
Qed.

(** ** Runs of a world with a resource *)

Lemma resource_inv_run evs : forall w, resource_inv w -> resource_inv (run evs w).
Proof.
  induction evs as [|e evs IH]; intros w Hw; [exact Hw|].
  simpl. apply IH. now apply resource_inv_step.
Qed.

Lemma wrapped_resource_inv ws sigs :
  readyState ws = OPEN ->
  listeners ws = [] ->
  resource_inv (exec WebSocketResource_new (world_with ws sigs)).
Proof.
  intros Hrs Hls. unfold exec.
  rewrite (new_open (world_with ws sigs) ws eq_refl Hrs).
  destruct ws as [rs bt ba ls scs ccs]. simpl in *. subst rs ls. simpl.
  apply (ResourceOpen OPEN bt ba 1 2 []); try discriminate.
  - constructor.
  - apply NoDup_ListNoDup. repeat constructor; simpl; intuition lia.
  - repeat constructor; lia.
Qed.

(** The close state of a resource: not started, or done once. *)
Lemma resource_close_state w :
  resource_inv w ->
  (closed w = false /\ closeSignalOf w = fresh_signal
   /\ teardown_runs w = [] /\ close_promise w = None)
  \/ (exists why p,
        closed w = true /\ closeSignalOf w = mkAbortSignal true why
        /\ teardown_runs w = [why] /\ close_promise w = Some (p, Fulfilled)).
Proof.
  intros [ | ]; [left; repeat split | right; eauto 10].
Qed.

Lemma closed_step_frozen e w :
  resource_inv w -> closed w = true -> this (step e w) = this w.
Proof.
  intros Hinv. step_cases Hinv e; intros Hcl; try discriminate Hcl.
  all: try reflexivity.
  all: try (destruct (aborted (sigs id)); reflexivity).
  all: try (destruct (_ && _); reflexivity).
Qed.

Lemma closed_run_frozen evs : forall w,
  resource_inv w -> closed w = true -> this (run evs w) = this w.
Proof.
  induction evs as [|e evs IH]; intros w Hinv Hcl; [reflexivity|].
  simpl. rewrite IH.
  - now apply closed_step_frozen.
  - now apply resource_inv_step.
  - unfold closed, sig_aborted in *. now rewrite closed_step_frozen.
Qed.

Lemma trigger_step_closes e r w :
  resource_inv w -> closed w = false -> close_trigger e = Some r ->
  closeSignalOf (step e w) = mkAbortSignal true r
  /\ teardown_runs (step e w) = [r].
Proof.
  intros Hinv. step_cases Hinv e; intros Hcl Htr; try discriminate.
  all: inversion Htr; subst; now split.
Qed.

Lemma quiet_step_open e w :
  resource_inv w -> closed w = false -> close_trigger e = None ->
  closed (step e w) = false.
Proof.
  intros Hinv. step_cases Hinv e; intros Hcl Htr; try discriminate.
  all: try reflexivity.
  all: try (destruct (aborted (sigs id)); reflexivity).
  all: try (destruct (_ && _); reflexivity).
Qed.

Lemma close_start_open w :
  resource_inv w -> closed w = false ->
  forall r,
    closeSignalOf (exec (close_start r) w) = mkAbortSignal true r
    /\ teardown_runs (exec (close_start r) w) = []
    /\ Resource_close r w = close_finish r (exec (close_start r) w).
Proof.
  intros Hinv Hcl r. destruct Hinv; [|discriminate].
  unfold Resource_close, close_start, the_instance, exec. unfold_m. simpl.
  repeat split.
Qed.

Lemma close_returns w r :
  resource_inv w ->
  exists p, fst (Resource_close r w) = Return p
            /\ close_promise (exec (Resource_close r) w) = Some (p, Fulfilled)
            /\ closed (exec (Resource_close r) w) = true
            /\ resource_inv (exec (Resource_close r) w).
Proof.
  intros Hinv. pose proof (resource_inv_step (CallClose r) w Hinv) as Hstep.
  revert Hstep. destruct Hinv; cbn [step has_resource this instance_open
    instance_closed manager]; intros Hstep; unfold exec in *.
  - rewrite close_open_resource in * by assumption. exists nid. now repeat split.
  - rewrite close_closed_resource in *. exists p. now repeat split.
Qed.

Lemma close_joins w r :
  resource_inv w -> closed w = true ->
  exists p st, close_promise w = Some (p, st) /\ Resource_close r w = (Return p, w).
Proof.
  intros Hinv Hcl. destruct Hinv; [discriminate|].
  exists p, Fulfilled. split; reflexivity.
Qed.

(** Every resource [open] resolves with lives in a world of the shape
    [resource_inv]; so does every resource a caller constructs from an open
    transport of its own ([wrapped_resource_inv]). *)
Lemma opened_resource_inv sigs url protocols signal evs :
  p_state (opening (run evs (exec (open url protocols signal) (empty_world sigs))))
  = Fulfilled ->
  resource_inv (run evs (exec (open url protocols signal) (empty_world sigs))).
Proof.
  intros Hop.
  destruct (race_inv_run signal evs _ (proj1 (open_race_inv url protocols signal sigs)))
    as [Hr | [Hl | [Hu | [Hinv _]]]].
  - destruct Hr. discriminate.
  - destruct Hl. discriminate.
  - destruct Hu. discriminate.
  - exact Hinv.
Qed.

(** The transport [open] has created when it returns. *)
Lemma open_created url protocols signal sigs ws :
  webSocket (exec (open url protocols signal) (empty_world sigs)) = Some ws ->
  ws = mkWebSocket CONNECTING arraybuffer 0 (raceListeners signal) [] []
  /\ opening (exec (open url protocols signal) (empty_world sigs)) = mkPromise Pending 0
  /\ deliveries (exec (open url protocols signal) (empty_world sigs)) = [].
Proof.
  unfold exec. destruct (caller_aborted (empty_world sigs) signal) eqn:E.
  - destruct signal as [id|]; [|discriminate]. simpl in E.
    rewrite (open_aborted (Some id) url protocols (empty_world sigs) id eq_refl E).
    discriminate.
  - destruct url as [href|text].
    + rewrite (open_racing signal href protocols sigs E). simpl.
      intros H. inversion H. now repeat split.
    + rewrite (open_malformed signal text protocols sigs E). discriminate.
Qed.

(** ** Payloads and tasks *)

Lemma resource_has_socket w :
  resource_inv w -> exists ws, webSocket w = Some ws /\ readyState ws <> CONNECTING.
Proof. intros [ | ]; eexists; split; (reflexivity || assumption). Qed.

Lemma send_is_step payload c w :
  resource_inv w -> exec (send payload c) w = step (CallSend payload c) w.
Proof. now intros [ | ]. Qed.

Lemma torn_down_sendCalls r ws : sendCalls (torn_down r ws) = sendCalls ws.
Proof. unfold torn_down. now destruct (readyState ws). Qed.

Lemma resource_step_sent e w :
  resource_inv w -> is_send e = false -> sent_payloads (step e w) = sent_payloads w.
Proof.
  intros Hinv. step_cases Hinv e; intros Hq; try discriminate Hq.
  all: unfold sent_payloads; world_simpl; rewrite ?torn_down_sendCalls.
  all: try reflexivity.
  all: try (destruct (aborted (sigs id)); reflexivity).
  all: try (destruct (_ && _); reflexivity).
Qed.

Lemma resource_run_sent evs : forall w,
  resource_inv w ->
  forallb (fun e => negb (is_send e)) evs = true ->
  sent_payloads (run evs w) = sent_payloads w.
Proof.
  induction evs as [|e evs IH]; intros w Hinv Hq; [reflexivity|].
  simpl in *. apply andb_true_iff in Hq as [He Hq].
  rewrite IH; [| now apply resource_inv_step | exact Hq].
  apply resource_step_sent; [exact Hinv|]. now destruct (is_send e).
Qed.

Lemma resource_step_sent_prefix e w :
  resource_inv w ->
  exists more, sent_payloads (step e w) = (sent_payloads w ++ more)%list.
Proof.
  destruct (is_send e) eqn:E.
  - destruct e; try discriminate. intros Hinv.
    destruct (closed w) eqn:Hcl.
    + exists []. rewrite app_nil_r.
      destruct Hinv; [discriminate|]. reflexivity.
    + destruct (resource_has_socket w Hinv) as (ws & Hws & Hrs).
      exists [payload]. rewrite <- send_is_step by exact Hinv.
      unfold exec, sent_payloads. now rewrite (send_eq w ws Hws payload signal Hcl Hrs), Hws.
  - intros Hinv. exists []. rewrite app_nil_r. now apply resource_step_sent.
Qed.

Lemma resource_run_sent_prefix evs : forall w,
  resource_inv w ->
  exists more, sent_payloads (run evs w) = (sent_payloads w ++ more)%list.
Proof.
  induction evs as [|e evs IH]; intros w Hinv.
  - exists []. now rewrite app_nil_r.
  - simpl. destruct (resource_step_sent_prefix e w Hinv) as [m1 H1].
    destruct (IH (step e w) (resource_inv_step e w Hinv)) as [m2 H2].
    exists (m1 ++ m2)%list. now rewrite H2, H1, app_assoc.
Qed.

Lemma abort_task_caller s r task : t_caller (abort_task s r task) = t_caller task.
Proof. unfold abort_task. now destruct (_ && _). Qed.

Lemma lookup_map_caller (f : SendTask -> SendTask) (tasks : list SendTask)
    (t : nat) task :
  (forall x, t_caller (f x) = t_caller x) ->
  tasks !! t = Some task ->
  exists task', List.map f tasks !! t = Some task' /\ t_caller task' = t_caller task.
Proof.
  intros Hf Ht. exists (f task). split; [|apply Hf].
  change (List.map f tasks) with (f <$> tasks).
  now rewrite list_lookup_fmap, Ht.
Qed.

Lemma lookup_insert_caller (tasks : list SendTask) (t t' : nat) task x st :
  tasks !! t = Some task ->
  tasks !! t' = Some x ->
  exists task', <[t' := set_task_state st x]> tasks !! t = Some task'
                /\ t_caller task' = t_caller task.
Proof.
  intros Ht Ht'. destruct (decide (t' = t)) as [->|Hne].
  - rewrite list_lookup_insert_eq by (eapply lookup_lt_Some; exact Ht).
    eexists. split; [reflexivity|]. simpl. congruence.
  - rewrite list_lookup_insert_ne by exact Hne. eauto.
Qed.

Lemma resource_step_task e w (i : nat) (x : SendTask) :
  resource_inv w ->
  sends w !! i = Some x ->
  exists x', sends (step e w) !! i = Some x' /\ t_caller x' = t_caller x.
Proof.
  intros Hinv Hi. step_cases Hinv e.
  all: try (destruct (aborted (sigs id))).
  all: try (destruct (_ && _)).
  all: world_simpl.
  all: try (now eauto).
  all: try (apply lookup_map_caller; [apply abort_task_caller | exact Hi]).
  all: try (eapply lookup_insert_caller; eassumption).
  all: try (rewrite lookup_app_l by (eapply lookup_lt_Some; exact Hi); now eauto).
Qed.

Lemma resource_run_task evs : forall w t task,
  resource_inv w ->
  sends w !! t = Some task ->
  exists task', sends (run evs w) !! t = Some task' /\ t_caller task' = t_caller task.
Proof.
  induction evs as [|e evs IH]; intros w t task Hinv Ht; [now eauto|].
  simpl. destruct (resource_step_task e w t task Hinv Ht) as (task1 & Ht1 & Hc1).
  destruct (IH (step e w) t task1 (resource_inv_step e w Hinv) Ht1) as (task2 & Ht2 & Hc2).
  exists task2. split; [exact Ht2 | congruence].
Qed.



Lemma resume_step w ws (t : nat) task o :
  webSocket w = Some ws ->
  sends w !! t = Some task ->
  t_state task = Awaiting (Some o) ->
  send_state t (step (Resume t) w)
  = Some (resume_state (t_caller task) (t_signal task) o w ws).
Proof.
  intros Hws Ht Hst. cbn [step]. rewrite Ht, Hst.
  rewrite (send_resume_eq w ws Hws). world_simpl.
  unfold send_state. cbn [sends].
  now rewrite list_lookup_insert_eq by (eapply lookup_lt_Some; exact Ht).
Qed.

Lemma resume_step_idle w (t : nat) :
  (forall o, send_state t w <> Some (Awaiting (Some o))) ->
  step (Resume t) w = w.
Proof.
  intros Hno. cbn [step]. unfold send_state in Hno.
  destruct (sends w !! t) as [task|]; [|reflexivity].
  destruct (t_state task) as [[o|]| |] eqn:E; try reflexivity.
  elim (Hno o). simpl. now rewrite E.
Qed.

Lemma timer_step w (t : nat) :
  send_state t w = Some (Awaiting None) ->
  send_state t (step (TimerFires t) w) = Some (Awaiting (Some SleepResolved)).
Proof.
  unfold send_state. intros Hst. cbn [step].
  destruct (sends w !! t) as [task|] eqn:Ht; [|discriminate].
  simpl in Hst. inversion Hst as [Hst']. rewrite Hst'. cbn [sends set_sends].
  now rewrite list_lookup_insert_eq by (eapply lookup_lt_Some; exact Ht).
Qed.



(** ** Where the error of a cancelled wait comes from *)

(** The caller aborts its signal while the task sleeps: the sleep rejects
    with the abort reason. *)
Lemma sleep_cancelled_by_caller w (i : nat) x id r :
  resource_inv w ->
  sends w !! i = Some x ->
  t_state x = Awaiting None ->
  t_caller x = Some id ->
  aborted (signals w id) = false ->
  aborted (t_signal x) = false ->
  send_state i (step (Abort id r) w) = Some (Awaiting (Some (SleepRejected r))).
Proof.
  intros Hinv Hi Hst Hc Hsig Hmerged. unfold send_state.
  destruct Hinv; cbn [step]; rewrite ?abort_open_resource, ?abort_closed_resource;
    cbn [signals sends] in *; rewrite Hsig; cbn [sends];
    change (List.map ?f ?l) with (f <$> l); rewrite list_lookup_fmap, Hi;
    unfold abort_task; cbn [task_depends fmap option_fmap option_map];
    rewrite Hc, Hmerged, Hst; simpl; now rewrite Nat.eqb_refl.
Qed.

(** The resource closes while the task sleeps: the sleep rejects with the
    close reason. *)
Lemma sleep_cancelled_by_close w (i : nat) x e r :
  resource_inv w ->
  closed w = false ->
  close_trigger e = Some r ->
  sends w !! i = Some x ->
  t_state x = Awaiting None ->
  aborted (t_signal x) = false ->
  send_state i (step e w) = Some (Awaiting (Some (SleepRejected r))).
Proof.
  intros Hinv Hcl Htr Hi Hst Hmerged. unfold send_state. revert Hcl Htr.
  step_cases Hinv e; intros Hcl Htr; try discriminate.
  all: inversion Htr; subst.
  all: change (List.map ?f ?l) with (f <$> l); rewrite list_lookup_fmap, Hi;
    unfold abort_task; cbn [task_depends fmap option_fmap option_map];
    now rewrite Hmerged, Hst.
Qed.

(** ** Subscriptions *)

Lemma torn_down_listeners r ws : listeners (torn_down r ws) = listeners ws.
Proof. unfold torn_down. now destruct (readyState ws). Qed.

Lemma registered_iff k w :
  registered k w = true <-> exists l, l ∈ listeners_of w /\ l_id l = k.
Proof.
  unfold registered, listeners_of. destruct (webSocket w) as [ws|].
  - rewrite List.existsb_exists. split.
    + intros (l & Hin & Heq). exists l. rewrite list_elem_of_In.
      apply Nat.eqb_eq in Heq. now split.
    + intros (l & Hin & Heq). exists l. rewrite <- list_elem_of_In.
      split; [exact Hin|]. now apply Nat.eqb_eq.
  - split; [discriminate|]. intros (l & Hin & _). now apply elem_of_nil in Hin.
Qed.

Lemma elem_of_filter_bool {A} (f : A -> bool) (l : list A) x :
  x ∈ List.filter f l -> x ∈ l.
Proof.
  rewrite !list_elem_of_In. intros H. now apply List.filter_In in H.
Qed.

Lemma resource_step_listeners e w l :
  resource_inv w ->
  l ∈ listeners_of (step e w) ->
  l ∈ listeners_of w \/ l_id l = next_id w.
Proof.
  intros Hinv. step_cases Hinv e.
  all: try (destruct (aborted (sigs id))).
  all: try (destruct (_ && _)).
  all: unfold listeners_of; world_simpl; rewrite ?torn_down_listeners;
    cbn [listeners].
  all: try (intros Hl; now left).
  all: try (intros Hl; now apply elem_of_nil in Hl).
  - rewrite !elem_of_cons. intros [-> | [-> | Hl]]; left; auto.
    apply elem_of_filter_bool in Hl. auto.
  - cbn [app]. rewrite !elem_of_cons, elem_of_app, list_elem_of_singleton.
    intros [-> | [-> | [Hl | ->]]]; auto.
Qed.

Lemma resource_step_next_id e w :
  resource_inv w -> next_id w <= next_id (step e w).
Proof.
  intros Hinv. step_cases Hinv e.
  all: try (destruct (aborted (sigs id))).
  all: try (destruct (_ && _)).
  all: world_simpl; lia.
Qed.

Lemma resource_step_deliveries e w :
  resource_inv w -> deliveries (step e w) = (deliveries w ++ delivered e w)%list.
Proof.
  intros Hinv. step_cases Hinv e.
  all: try (destruct (aborted (sigs id))).
  all: try (destruct (_ && _)).
  all: unfold delivered; world_simpl; rewrite ?app_nil_r; try reflexivity.
  cbn [List.filter closeListener errorListener l_type EventType_eqb].
  now rewrite (filter_subscriptions_type sigs subs ev_message).
Qed.

Lemma resource_listener_ids w :
  resource_inv w ->
  NoDup (List.map l_id (listeners_of w))
  /\ (forall l, l ∈ listeners_of w -> l_id l < next_id w).
Proof.
  intros [ | ]; unfold listeners_of; simpl.
  - split; [assumption|]. intros l Hl.
    rewrite Forall_forall in H2. apply (H2 (l_id l)).
    change (l_id l ∈ List.map l_id (closeListener idc :: errorListener ide :: subs)).
    change (List.map l_id ?x) with (l_id <$> x). now apply list_elem_of_fmap_2.
  - split; [constructor|]. intros l Hl. now apply elem_of_nil in Hl.
Qed.

(** A registered 'message' listener belongs to a resource that is not
    closed, and none of the signals it is scoped to has fired. *)
Lemma resource_subscription_live w l :
  resource_inv w ->
  l ∈ listeners_of w ->
  l_type l = ev_message ->
  closed w = false /\ forall r, r ∈ l_signal l -> sig_aborted w r = false.
Proof.
  intros [ | ]; unfold listeners_of; simpl.
  - rewrite !elem_of_cons. intros [-> | [-> | Hl]] Hty; try discriminate.
    split; [reflexivity|]. rewrite Forall_forall in H0.
    destruct (H0 l Hl) as (_ & _ & [Hs | (id & Hs & Hab)]); rewrite Hs; intros r.
    + rewrite list_elem_of_singleton. now intros ->.
    + rewrite !elem_of_cons. intros [-> | [-> | Hr]]; [reflexivity|exact Hab|].
      now apply elem_of_nil in Hr.
  - intros Hl. now apply elem_of_nil in Hl.
Qed.

Lemma tracks_step L e w : tracks L w -> tracks L (step e w).
Proof.
  intros (Hinv & Hlt & Hsame). split; [now apply resource_inv_step|].
  pose proof (resource_step_next_id e w Hinv). split; [lia|].
  intros l Hl Hid. destruct (resource_step_listeners e w l Hinv Hl) as [Hold | Hnew].
  - now apply Hsame.
  - lia.
Qed.

Lemma tracks_run L evs : forall w, tracks L w -> tracks L (run evs w).
Proof.
  induction evs as [|e evs IH]; intros w Hw; [exact Hw|].
  simpl. apply IH. now apply tracks_step.
Qed.

Lemma tracks_fired L w r :
  tracks L w ->
  l_type L = ev_message ->
  r ∈ l_signal L ->
  sig_aborted w r = true ->
  registered (l_id L) w = false.
Proof.
  intros (Hinv & _ & Hsame) Hty Hr Hab.
  destruct (registered (l_id L) w) eqn:Hreg; [|reflexivity].
  apply registered_iff in Hreg as (l & Hl & Hid).
  pose proof (Hsame l Hl Hid) as ->.
  destruct (resource_subscription_live w L Hinv Hl Hty) as [_ Hlive].
  rewrite (Hlive r Hr) in Hab. discriminate.
Qed.

Lemma filter_delivered_none data k (ls : list Listener) :
  (forall l, l ∈ ls -> l_id l <> k) ->
  List.filter (fun d => Nat.eqb (d_listener d) k) (List.map (delivery_to data) ls) = [].
Proof.
  induction ls as [|l ls IH]; intros Hno; [reflexivity|].
  simpl. destruct (Nat.eqb (l_id l) k) eqn:E.
  - apply Nat.eqb_eq in E. elim (Hno l); [left|exact E].
  - apply IH. intros l' Hl'. apply Hno. now right.
Qed.

Lemma filter_delivered_unique data L (ls : list Listener) :
  NoDup (List.map l_id ls) ->
  L ∈ ls ->
  List.filter (fun d => Nat.eqb (d_listener d) (l_id L)) (List.map (delivery_to data) ls)
  = [delivery_to data L].
Proof.
  induction ls as [|l ls IH]; intros Hnd Hin; [now apply elem_of_nil in Hin|].
  simpl in Hnd. inversion Hnd as [|? ? Hnotin Hnd']; subst.
  apply elem_of_cons in Hin as [<- | Hin].
  - simpl. rewrite Nat.eqb_refl. f_equal. apply filter_delivered_none.
    intros l Hl Heq. apply Hnotin. rewrite <- Heq.
    change (List.map l_id ls) with (l_id <$> ls). now apply list_elem_of_fmap_2.
  - simpl. destruct (Nat.eqb (l_id l) (l_id L)) eqn:E; [|now apply IH].
    apply Nat.eqb_eq in E. elim Hnotin. rewrite E.
    change (List.map l_id ls) with (l_id <$> ls). now apply list_elem_of_fmap_2.
Qed.

Lemma deliveries_to_step k e w :
  resource_inv w ->
  deliveries_to k (step e w)
  = (deliveries_to k w
     ++ List.filter (fun d => Nat.eqb (d_listener d) k) (delivered e w))%list.
Proof.
  intros Hinv. unfold deliveries_to.
  now rewrite (resource_step_deliveries e w Hinv), List.filter_app.
Qed.

Lemma unregistered_step L e w :
  tracks L w ->
  registered (l_id L) w = false ->
  registered (l_id L) (step e w) = false
  /\ deliveries_to (l_id L) (step e w) = deliveries_to (l_id L) w.
Proof.
  intros (Hinv & Hlt & Hsame) Hreg.
  assert (Hnone : forall l, l ∈ listeners_of w -> l_id l <> l_id L).
  { intros l Hl Hid. assert (registered (l_id L) w = true) as Hr
      by (apply registered_iff; eauto). congruence. }
  split.
  - destruct (registered (l_id L) (step e w)) eqn:Hreg'; [|reflexivity].
    apply registered_iff in Hreg' as (l & Hl & Hid).
    destruct (resource_step_listeners e w l Hinv Hl) as [Hold | Hnew].
    + elim (Hnone l Hold Hid).
    + lia.
  - rewrite (deliveries_to_step _ e w Hinv).
    assert (List.filter (fun d => Nat.eqb (d_listener d) (l_id L)) (delivered e w) = [])
      as ->; [|apply app_nil_r].
    unfold delivered. destruct e; try reflexivity.
    unfold listeners_of in Hnone. destruct (webSocket w) as [ws|]; [|reflexivity].
    destruct (readyState ws); try reflexivity.
    apply filter_delivered_none. intros l Hl. apply Hnone.
    now apply elem_of_filter_bool in Hl.
Qed.

Lemma unregistered_run L evs : forall w,
  tracks L w ->
  registered (l_id L) w = false ->
  registered (l_id L) (run evs w) = false
  /\ deliveries_to (l_id L) (run evs w) = deliveries_to (l_id L) w.
Proof.
  induction evs as [|e evs IH]; intros w Ht Hreg; [now split|].
  simpl. destruct (unregistered_step L e w Ht Hreg) as [Hreg' Hdel'].
  destruct (IH (step e w) (tracks_step L e w Ht) Hreg') as [Hreg'' Hdel''].
  split; [exact Hreg''|congruence].
Qed.

Lemma registered_message_step L f w ws :
  tracks L w ->
  l_type L = ev_message ->
  registered (l_id L) w = true ->
  webSocket w = Some ws ->
  readyState ws = OPEN ->
  deliveries_to (l_id L) (step (TransportMessage f) w)
  = (deliveries_to (l_id L) w
     ++ [mkDelivery (l_id L) (callback_of L) (frame_data (binaryType ws) f)])%list.
Proof.
  intros (Hinv & Hlt & Hsame) Hty Hreg Hws Hrs.
  rewrite (deliveries_to_step _ _ w Hinv). f_equal.
  unfold delivered. rewrite Hws, Hrs.
  apply registered_iff in Hreg as (l & Hl & Hid).
  pose proof (Hsame l Hl Hid) as ->.
  destruct (resource_listener_ids w Hinv) as [Hnd _].
  unfold listeners_of in Hl, Hnd. rewrite Hws in Hl, Hnd.
  apply (filter_delivered_unique (frame_data (binaryType ws) f) L).
  - now apply NoDup_map_filter.
  - rewrite list_elem_of_In. apply List.filter_In. split.
    + now apply list_elem_of_In.
    + now rewrite Hty.
Qed.

Lemma listen_is_step cb c w :
  resource_inv w -> exec (listen cb c) w = step (CallListen cb c) w.
Proof. now intros [ | ]. Qed.

Lemma listen_tracks cb c w :
  resource_inv w ->
  caller_aborted w c = false ->
  closed w = false ->
  listeners_of (exec (listen cb c) w)
  = (listeners_of w ++ [subscribe (next_id w) cb c])%list
  /\ deliveries (exec (listen cb c) w) = deliveries w
  /\ tracks (subscribe (next_id w) cb c) (exec (listen cb c) w).
Proof.
  intros Hinv Hab Hcl.
  destruct (resource_has_socket w Hinv) as (ws & Hws & _).
  assert (Hinv1 : resource_inv (exec (listen cb c) w))
    by (rewrite listen_is_step by exact Hinv; now apply resource_inv_step).
  revert Hinv1. unfold exec. rewrite (listen_eq w ws Hws cb c Hab Hcl).
  unfold listeners_of. rewrite Hws. world_simpl. intros Hinv1.
  split; [reflexivity|]. split; [reflexivity|].
  split; [exact Hinv1|]. split; [simpl; lia|].
  intros l Hl Hid. unfold listeners_of in Hl. world_simpl.
  apply elem_of_app in Hl as [Hold | Hnew].
  - destruct (resource_listener_ids w Hinv) as [_ Hlt].
    unfold listeners_of in Hlt. rewrite Hws in Hlt.
    specialize (Hlt l Hold). simpl in Hid. lia.
  - now apply list_elem_of_singleton in Hnew.
Qed.

(** A signal that has fired stays fired. *)
Lemma sig_aborted_step e w r :
  resource_inv w -> sig_aborted w r = true -> sig_aborted (step e w) r = true.
Proof.
  intros Hinv Hfired. destruct r as [|s].
  - change (closed (step e w) = true). change (closed w = true) in Hfired.
    unfold closed, sig_aborted in *. now rewrite closed_step_frozen.
  - revert Hfired. step_cases Hinv e; cbn [sig_aborted signals]; intros Hfired.
    all: try assumption.
    all: try (destruct (aborted (sigs id)) eqn:E; cbn [signals]; [assumption|];
              destruct (Nat.eqb s id); [reflexivity | assumption]).
    all: try (destruct (_ && _); assumption).
Qed.

Lemma sig_aborted_run evs : forall w r,
  resource_inv w -> sig_aborted w r = true -> sig_aborted (run evs w) r = true.
Proof.
  induction evs as [|e evs IH]; intros w r Hinv Hab; [exact Hab|].
  simpl. apply IH; [now apply resource_inv_step | now apply sig_aborted_step].
Qed.

Lemma scoped_to_elem_of r l : scoped_to r l = true -> r ∈ l_signal l.
Proof.
  unfold scoped_to. rewrite List.existsb_exists. intros (x & Hin & Heq).
  apply list_elem_of_In.
  destruct r, x; simpl in Heq; try discriminate; [exact Hin|].
  apply Nat.eqb_eq in Heq. now subst.
Qed.

(** A listener stays registered as long as the resource is open and none
    of the signals it is scoped to has fired. *)
Lemma resource_step_keeps e w l :
  resource_inv w ->
  l ∈ listeners_of w ->
  closed (step e w) = false ->
  (forall r, r ∈ l_signal l -> sig_aborted (step e w) r = false) ->
  l ∈ listeners_of (step e w).
Proof.
  intros Hinv. step_cases Hinv e.
  all: try (destruct (aborted (sigs id)) eqn:E).
  all: try (destruct (_ && _)).
  all: unfold listeners_of, closed; cbn [sig_aborted]; world_simpl;
    rewrite ?torn_down_listeners; cbn [listeners instance_closed closeSignal aborted].
  all: try (intros Hl _ _; exact Hl).
  all: try (intros _ Hcl; discriminate Hcl).
  - rewrite !elem_of_cons. intros [-> | [-> | Hl]] _ Hlive; auto.
    do 2 right. rewrite list_elem_of_In. apply List.filter_In.
    split; [now apply list_elem_of_In|].
    destruct (scoped_to (CallerSignal id) l) eqn:Hsc; [|reflexivity].
    apply scoped_to_elem_of in Hsc. specialize (Hlive _ Hsc).
    cbn [sig_aborted signals] in Hlive. now rewrite Nat.eqb_refl in Hlive.
  - cbn [app]. rewrite !elem_of_cons, elem_of_app. intros [-> | [-> | Hl]] _ _; auto.
Qed.

Lemma resource_run_keeps evs : forall w l,
  resource_inv w ->
  l ∈ listeners_of w ->
  closed (run evs w) = false ->
  (forall r, r ∈ l_signal l -> sig_aborted (run evs w) r = false) ->
  l ∈ listeners_of (run evs w).
Proof.
  induction evs as [|e evs IH]; intros w l Hinv Hl Hcl Hlive; [exact Hl|].
  simpl in *. pose proof (resource_inv_step e w Hinv) as Hinv'.
  apply IH; try assumption.
  apply resource_step_keeps; [exact Hinv | exact Hl | |].
  - destruct (closed (step e w)) eqn:E; [|reflexivity].
    rewrite <- Hcl. symmetry. now apply (sig_aborted_run evs _ CloseSignal).
  - intros r Hr. destruct (sig_aborted (step e w) r) eqn:E; [|reflexivity].
    rewrite <- (Hlive r Hr). symmetry. now apply sig_aborted_run.
Qed.

(** ** The repository's test scenarios *)

(** 'should open, send, and receive' *)
Example open_send_receive :
  opening echoed = mkPromise Fulfilled 1
  /\ sent_payloads echoed = [UpText "test"]
  /\ send_state 0 echoed = Some SendFulfilled
  /\ deliveries echoed = [mkDelivery 5 7 (DownText "server->test")].
Proof. repeat split. Qed.

(** 'should throw if a non "open" WebSocket is provided' *)
Example wrap_closed_socket :
  fst (WebSocketResource_new (world_with closed_socket quiet))
  = Throw (VError "WebSocket not open.").
Proof. reflexivity. Qed.

(** 'should close if the WebSocket closes', and a send after that *)
Example peer_close_closes :
  closed peer_closed = true
  /\ closeSignalOf peer_closed
     = mkAbortSignal true (VWebSocketError (Some 1000%Z) (Some "bye"))
  /\ send_state 0 peer_closed = Some (SendRejected VClosedError)
  /\ sent_payloads peer_closed = [].
Proof. repeat split. Qed.

(** 'should be abortable': the caller aborts while the bytes are buffered. *)
Example send_aborted :
  send_state 0
    (run [CallSend (UpText "test") (Some 0); Abort 0 (VString "stop"); Resume 0]
         wrapped)
  = Some (SendRejected (VString "stop")).
Proof. reflexivity. Qed.

(** 'should close with WebSocketError' *)
Example close_with_error :
  let w := run [CallClose WebSocketError_new] wrapped in
  close_promise w = Some (3, Fulfilled)
  /\ option_map closeCalls (webSocket w) = Some [(None, None)].
Proof. repeat split. Qed.

(* ===================================================================== *)
(** * The claims                                                          *)
(* ===================================================================== *)

(** C4: for every transport that is not in the Open state, constructing a
    resource from it throws [Error('WebSocket not open.')] synchronously, and
    no teardown action is registered: the constructor stops before it creates
    its [CloseStack], so the object under construction has no manager. *)
Theorem constructor_throws_unless_open (w : World) (ws : WebSocket) :
  webSocket w = Some ws ->
  readyState ws <> OPEN ->
  fst (WebSocketResource_new w) = Throw (VError "WebSocket not open.")
  /\ registered_teardowns (exec WebSocketResource_new w) = []
  /\ teardown_runs (exec WebSocketResource_new w) = []
  /\ has_resource (exec WebSocketResource_new w) = false.
Proof.
  intros Hws Hne. unfold exec. rewrite (new_not_open w ws Hws Hne).
  repeat split.
Qed.

Lemma constructor_throws_unless_open_witness :
  fst (WebSocketResource_new (world_with closed_socket quiet))
  = Throw (VError "WebSocket not open.")
  /\ registered_teardowns (exec WebSocketResource_new (world_with closed_socket quiet)) = []
  /\ teardown_runs (exec WebSocketResource_new (world_with closed_socket quiet)) = []
  /\ has_resource (exec WebSocketResource_new (world_with closed_socket quiet)) = false.
Proof.
  apply (constructor_throws_unless_open (world_with closed_socket quiet) closed_socket).
  - reflexivity.
  - simpl. discriminate.
Defined.

(** C10: when construction fails because the transport is not Open, the
    transport is left as it was: no listener was attached to it and neither
    [send] nor [close] was invoked on it; nothing was registered on the
    callers' signals either. *)
Theorem failed_construction_leaves_transport (w : World) (ws : WebSocket) :
  webSocket w = Some ws ->
  readyState ws <> OPEN ->
  webSocket (exec WebSocketResource_new w) = Some ws
  /\ listeners_of (exec WebSocketResource_new w) = listeners ws
  /\ sent_payloads (exec WebSocketResource_new w) = sendCalls ws
  /\ (forall ws', webSocket (exec WebSocketResource_new w) = Some ws' ->
        closeCalls ws' = closeCalls ws /\ readyState ws' = readyState ws)
  /\ abortListeners (exec WebSocketResource_new w) = abortListeners w.
Proof.
  intros Hws Hne. unfold exec, listeners_of, sent_payloads.
  rewrite (new_not_open w ws Hws Hne). simpl. rewrite Hws.
  repeat split; congruence.
Qed.

Lemma failed_construction_leaves_transport_witness :
  webSocket (exec WebSocketResource_new (world_with closed_socket quiet))
  = Some closed_socket
  /\ listeners_of (exec WebSocketResource_new (world_with closed_socket quiet)) = []
  /\ sent_payloads (exec WebSocketResource_new (world_with closed_socket quiet)) = [].
Proof.
  destruct (failed_construction_leaves_transport
              (world_with closed_socket quiet) closed_socket)
    as (H1 & H2 & H3 & _).
  - reflexivity.
  - simpl. discriminate.
  - exact (conj H1 (conj H2 H3)).
Defined.

(** C6: when the teardown action runs on a transport that is Connecting or
    Open, it invokes the transport's [close] once, with the reason's code and
    text when the reason is a [WebSocketError] and with no argument
    otherwise; on a transport in any other state it does nothing at all. *)
Theorem teardown_closes_live_transport (w : World) (ws : WebSocket) (why : Value) :
  webSocket w = Some ws ->
  run_teardown closeTransport why = teardown why
  /\ fst (teardown why w) = Return tt
  /\ (readyState ws = CONNECTING \/ readyState ws = OPEN ->
      (forall code text, why = VWebSocketError code text ->
         exec (teardown why) w
         = set_webSocket (Some
             (mkWebSocket CLOSING (binaryType ws) (bufferedAmount ws) (listeners ws)
                (sendCalls ws) (closeCalls ws ++ [(code, text)]))) w)
      /\ (instanceof_WebSocketError why = false ->
         exec (teardown why) w
         = set_webSocket (Some
             (mkWebSocket CLOSING (binaryType ws) (bufferedAmount ws) (listeners ws)
                (sendCalls ws) (closeCalls ws ++ [(None, None)]))) w))
  /\ (readyState ws = CLOSING \/ readyState ws = CLOSED ->
      exec (teardown why) w = w).
Proof.
  intros Hws. split; [reflexivity|].
  unfold exec, teardown, the_webSocket, WebSocket_close, the_webSocket. unfold_m.
  rewrite Hws. split; [|split].
  - destruct (readyState ws); simpl; destruct (instanceof_WebSocketError why);
      simpl; now rewrite ?Hws.
  - intros Hrs. split.
    + intros code text ->. destruct Hrs as [E | E]; rewrite E; simpl;
        now rewrite Hws, E.
    + intros Hno. rewrite Hno. destruct Hrs as [E | E]; rewrite E; simpl;
        now rewrite Hws, E.
  - intros [E | E]; now rewrite E.
Qed.

Lemma teardown_closes_live_transport_witness :
  exec (teardown (VWebSocketError (Some 3000%Z) (Some "done")))
       (world_with open_socket quiet)
  = set_webSocket (Some
      (mkWebSocket CLOSING blob 0 [] [] [(Some 3000%Z, Some "done")]))
      (world_with open_socket quiet).
Proof.
  destruct (teardown_closes_live_transport (world_with open_socket quiet) open_socket
              (VWebSocketError (Some 3000%Z) (Some "done")) eq_refl)
    as (_ & _ & Hlive & _).
  destruct (Hlive (or_intror eq_refl)) as [Herr _].
  exact (Herr (Some 3000%Z) (Some "done") eq_refl).
Defined.

(** C8: when the signal given to [open] is already aborted at call time,
    the promise [open] returns is rejected with that signal's abort reason
    when the call returns, no transport is created and no listener is
    registered: the world is otherwise untouched. *)
Theorem open_with_aborted_signal (w : World) (url : Url) (protocols : list string)
    (id : nat) :
  aborted (signals w id) = true ->
  open url protocols (Some id) w
  = (Return tt, set_opening (mkPromise (Rejected (reason (signals w id))) 1) w)
  /\ webSocket (exec (open url protocols (Some id)) w) = webSocket w
  /\ abortListeners (exec (open url protocols (Some id)) w) = abortListeners w.
Proof.
  intros Hab. unfold exec.
  rewrite (open_aborted (Some id) url protocols w id eq_refl Hab).
  repeat split.
Qed.

Lemma open_with_aborted_signal_witness :
  opening (exec (open chat [] (Some 0)) (empty_world stopped))
  = mkPromise (Rejected (VString "stop")) 1
  /\ webSocket (exec (open chat [] (Some 0)) (empty_world stopped)) = None.
Proof.
  destruct (open_with_aborted_signal (empty_world stopped) chat [] 0 eq_refl)
    as (H1 & H2 & _).
  split; [|exact H2].
  unfold exec. rewrite H1. reflexivity.
Defined.

(** C1 (as stated, refuted): a [send] whose drain wait is cancelled by the
    caller's signal after the buffered byte count has reached zero does not
    resolve: when the rejection is evaluated the count is zero and the
    promise is rejected with the abort reason all the same. *)
Lemma send_drained_yet_rejected :
  buffered drained_then_aborted = 0%N
  /\ send_state 0 drained_then_aborted
     = Some (Awaiting (Some (SleepRejected (VString "stop"))))
  /\ send_state 0 (step (Resume 0) drained_then_aborted)
     = Some (SendRejected (VString "stop"))
  /\ send_state 0 (step (Resume 0) drained_then_aborted) <> Some SendFulfilled.
Proof. repeat split. discriminate. Qed.

(** C1 (amended): when the continuation of a cancelled drain wait runs, the
    promise of [send] is rejected with the error of the cancelled wait if
    bytes remain buffered or if the caller's own signal is aborted at that
    moment; it resolves if the count is zero and the caller's signal is not
    aborted (the wait was cancelled by the close of the resource).  The
    transport is not touched. *)
Theorem cancelled_send_tie_break (w : World) (ws : WebSocket) (t : nat)
    (task : SendTask) (error : Value) :
  webSocket w = Some ws ->
  sends w !! t = Some task ->
  t_state task = Awaiting (Some (SleepRejected error)) ->
  ((0 < bufferedAmount ws)%N ->
     send_state t (step (Resume t) w) = Some (SendRejected error))
  /\ (caller_aborted w (t_caller task) = true ->
     send_state t (step (Resume t) w) = Some (SendRejected error))
  /\ (bufferedAmount ws = 0%N -> caller_aborted w (t_caller task) = false ->
     send_state t (step (Resume t) w) = Some SendFulfilled)
  /\ webSocket (step (Resume t) w) = webSocket w.
Proof.
  intros Hws Ht Hst. cbn [step]. rewrite Ht, Hst.
  rewrite (send_resume_eq w ws Hws). world_simpl.
  unfold send_state. cbn [sends].
  rewrite list_lookup_insert_eq by (eapply lookup_lt_Some; exact Ht).
  cbn [fmap option_fmap option_map set_task_state t_state resume_state].
  repeat split.
  - intros Hpos. apply N.ltb_lt in Hpos. now rewrite Hpos, orb_true_r.
  - now intros ->.
  - intros Hz Hca. now rewrite Hca, Hz.
Qed.

Lemma cancelled_send_tie_break_witness :
  send_state 0 (step (Resume 0) drained_then_closed) = Some SendFulfilled.
Proof.
  destruct (cancelled_send_tie_break drained_then_closed
              (mkWebSocket CLOSING blob 0 [] [UpText "ping"] [(None, None)])
              0
              (mkSendTask None (mkAbortSignal true VUndefined)
                 (Awaiting (Some (SleepRejected VUndefined))))
              VUndefined eq_refl eq_refl eq_refl)
    as (_ & _ & Hdrained & _).
  exact (Hdrained eq_refl eq_refl).
Defined.

(** C3: in every execution that follows a call of [open], the capability
    functions of the returned promise are called at most once.  While the
    promise is pending the race is on, with its three transport listeners
    and, when a signal was given, its 'abort' listener in place; the first
    of the four outcomes (abort of the signal, transport open, transport
    close, transport error) settles the promise with that outcome and leaves
    no listener of the race registered; once settled the promise never
    changes. *)
Theorem race_settles_once (sigs : nat -> AbortSignal) (url : Url)
    (protocols : list string) (signal : option nat) (evs : list Event) :
  let w := run evs (exec (open url protocols signal) (empty_world sigs)) in
  p_settles (opening w) <= 1
  /\ (p_state (opening w) = Pending ->
        p_settles (opening w) = 0
        /\ race_registrations w = 3 + match signal with Some _ => 1 | None => 0 end
        /\ forall e st, race_outcome signal e w = Some st ->
             opening (step e w) = mkPromise st 1
             /\ race_registrations (step e w) = 0)
  /\ (p_state (opening w) <> Pending ->
        p_settles (opening w) = 1
        /\ race_registrations w = 0
        /\ forall evs', opening (run evs' w) = opening w).
Proof.
  intros w.
  assert (Hinv : race_inv signal w).
  { apply race_inv_run. apply open_race_inv. }
  pose proof (race_inv_settles signal w Hinv) as Hset.
  pose proof (race_inv_registrations signal w Hinv) as Hreg.
  split; [|split].
  - rewrite Hset. destruct (p_state (opening w)); lia.
  - intros Hp. rewrite Hp in Hset, Hreg. split; [exact Hset|]. split; [exact Hreg|].
    intros e st Hout.
    destruct Hinv as [Hr | [Hl | [Hu | [_ Hop]]]].
    + pose proof (racing_step signal e w Hr) as Hstep. rewrite Hout in Hstep.
      destruct Hstep as [Hop Hcase]. split; [exact Hop|].
      assert (Hinv' : race_inv signal (step e w)).
      { destruct Hcase as [Hl | [Hw _]]; [right; now left | now do 3 right]. }
      rewrite (race_inv_registrations signal _ Hinv'), Hop. simpl.
      destruct e; simpl in Hout; try discriminate.
      * destruct (_ && _); now inversion Hout.
      * destruct (webSocket w) as [ws|]; [|discriminate].
        destruct (readyState ws); now inversion Hout.
      * now inversion Hout.
      * now inversion Hout.
    + destruct Hl. discriminate.
    + destruct Hu. discriminate.
    + rewrite Hop in Hp. discriminate.
  - intros Hp. split; [|split].
    + rewrite Hset. now destruct (p_state (opening w)).
    + rewrite Hreg. now destruct (p_state (opening w)).
    + intros evs'. now apply (settled_run signal).
Qed.

(** C9: the transport [open] creates has binary type 'arraybuffer' when
    [open] returns, while the promise is still pending and no listener has
    been called; it keeps that binary type in every later world, and every
    value handed to a listener is the raw frame as that binary type decodes
    it: a binary frame arrives as an ArrayBuffer, never as a Blob. *)
Theorem opened_transport_is_arraybuffer (sigs : nat -> AbortSignal) (url : Url)
    (protocols : list string) (signal : option nat) (evs : list Event) :
  let w0 := exec (open url protocols signal) (empty_world sigs) in
  (forall ws, webSocket w0 = Some ws ->
     binaryType ws = arraybuffer
     /\ p_state (opening w0) = Pending /\ deliveries w0 = [])
  /\ (forall ws, webSocket (run evs w0) = Some ws -> binaryType ws = arraybuffer)
  /\ (forall d, d ∈ deliveries (run evs w0) ->
        exists f, d_data d = frame_data arraybuffer f)
  /\ (forall d bytes, d ∈ deliveries (run evs w0) -> d_data d <> DownBlob bytes).
Proof.
  intros w0.
  destruct (open_race_inv url protocols signal sigs) as [Hinv Hab].
  fold w0 in Hinv, Hab.
  pose proof (race_run_arraybuffer signal evs w0 Hinv Hab) as [Hbt Hdel].
  rewrite Forall_forall in Hdel.
  split; [|split; [exact Hbt | split; [exact Hdel|]]].
  - intros ws Hws.
    destruct (open_created url protocols signal sigs ws Hws) as (-> & Hop & Hno).
    fold w0 in Hop, Hno. rewrite Hop. now repeat split.
  - intros d bytes Hd Heq. destruct (Hdel d Hd) as [f Hf]. rewrite Hf in Heq.
    destruct f; discriminate.
Qed.

(** C2: in every world of a constructed resource the teardown has run once
    if the resource is closed and not at all otherwise.  While the resource
    is open, the close signal fires in the first phase of the close
    procedure, before any teardown has run; each of the three triggers (an
    explicit [close], the transport's 'close' event, the transport's 'error'
    event) starts that procedure with its own reason, and no other event
    fires the signal.  Once the signal has fired, its state, the record of
    teardown executions and the promise of the close never change again,
    whatever happens; every call of [close], however many and whenever made,
    returns the one promise of the close, which is fulfilled. *)
Theorem close_happens_once (w : World) :
  resource_inv w ->
  (forall evs,
     length (teardown_runs (run evs w)) = (if closed (run evs w) then 1 else 0))
  /\ (closed w = false ->
        (forall r,
           closeSignalOf (exec (close_start r) w) = mkAbortSignal true r
           /\ teardown_runs (exec (close_start r) w) = []
           /\ Resource_close r w = close_finish r (exec (close_start r) w))
        /\ (forall e r, close_trigger e = Some r ->
              closeSignalOf (step e w) = mkAbortSignal true r
              /\ teardown_runs (step e w) = [r])
        /\ (forall e, close_trigger e = None -> closed (step e w) = false))
  /\ (closed w = true ->
        forall evs,
          closeSignalOf (run evs w) = closeSignalOf w
          /\ teardown_runs (run evs w) = teardown_runs w
          /\ close_promise (run evs w) = close_promise w)
  /\ (forall r1 evs r2,
        exists p,
          fst (Resource_close r1 w) = Return p
          /\ fst (Resource_close r2 (run evs (exec (Resource_close r1) w))) = Return p
          /\ close_promise (run evs (exec (Resource_close r1) w)) = Some (p, Fulfilled)
          /\ length (teardown_runs (run evs (exec (Resource_close r1) w))) = 1).
Proof.
  intros Hinv. split; [|split; [|split]].
  - intros evs. pose proof (resource_inv_run evs w Hinv) as Hinv'.
    destruct (resource_close_state _ Hinv')
      as [(Hc & _ & Hr & _) | (r & p & Hc & _ & Hr & _)]; now rewrite Hc, Hr.
  - intros Hcl. split; [now apply close_start_open|].
    split; [intros e r; now apply trigger_step_closes | intros e; now apply quiet_step_open].
  - intros Hcl evs. unfold closeSignalOf, teardown_runs, close_promise.
    now rewrite (closed_run_frozen evs w Hinv Hcl).
  - intros r1 evs r2.
    destruct (close_returns w r1 Hinv) as (p & Hret & Hprom & Hcl & Hinv1).
    exists p. split; [exact Hret|].
    pose proof (closed_run_frozen evs _ Hinv1 Hcl) as Hfrozen.
    pose proof (resource_inv_run evs _ Hinv1) as Hinv2.
    assert (Hcl2 : closed (run evs (exec (Resource_close r1) w)) = true).
    { unfold closed, sig_aborted in *. now rewrite Hfrozen. }
    assert (Hprom2 : close_promise (run evs (exec (Resource_close r1) w))
                     = Some (p, Fulfilled)).
    { unfold close_promise in *. now rewrite Hfrozen. }
    split; [|split; [exact Hprom2|]].
    + destruct (close_joins _ r2 Hinv2 Hcl2) as (p' & st & Hp' & Hjoin).
      rewrite Hjoin. simpl. congruence.
    + destruct (resource_close_state _ Hinv2)
        as [(Hc & _) | (r & p' & _ & _ & Hr & _)]; [congruence|now rewrite Hr].
Qed.

Lemma close_happens_once_witness :
  length (teardown_runs (run [CallClose VUndefined; CallClose (VString "again")] wrapped))
  = 1
  /\ fst (Resource_close (VString "again")
            (run [TransportFlush 0] (exec (Resource_close VUndefined) wrapped)))
     = fst (Resource_close VUndefined wrapped).
Proof.
  assert (Hinv : resource_inv wrapped)
    by (apply wrapped_resource_inv; reflexivity).
  split.
  - exact (proj1 (close_happens_once wrapped Hinv)
             [CallClose VUndefined; CallClose (VString "again")]).
  - destruct (close_happens_once wrapped Hinv) as (_ & _ & _ & Hsame).
    destruct (Hsame VUndefined [TransportFlush 0%N] (VString "again"))
      as (p & H1 & H2 & _).
    exact (eq_trans H2 (eq_sym H1)).
Defined.

(** C5: a [send(payload)] on a resource that is not closed hands the payload
    to the transport before the call returns, so the payload of a later
    [send] follows it in the transport's order whatever happens between the
    two calls.  The promise returned is fulfilled at once when nothing is
    buffered after the hand-over; otherwise the task waits, the timer of its
    sleep wakes it, and the continuation fulfils the promise when it finds
    the buffered byte count at zero, and never while bytes remain. *)
Theorem send_commits_then_waits (w : World) (payload : UpValue) :
  resource_inv w ->
  closed w = false ->
  fst (send payload None w) = Return (length (sends w))
  /\ sent_payloads (exec (send payload None) w) = (sent_payloads w ++ [payload])%list
  /\ buffered (exec (send payload None) w) = (buffered w + byteLength payload)%N
  /\ send_state (length (sends w)) (exec (send payload None) w)
     = Some (if (0 <? buffered w + byteLength payload)%N
             then Awaiting None else SendFulfilled)
  /\ (forall evs payload2,
        closed (run evs (exec (send payload None) w)) = false ->
        exists between,
          sent_payloads (exec (send payload2 None)
                              (run evs (exec (send payload None) w)))
          = (sent_payloads w ++ [payload] ++ between ++ [payload2])%list
          /\ (forallb (fun e => negb (is_send e)) evs = true -> between = []))
  /\ (forall evs,
        let t := length (sends w) in
        let w2 := run evs (exec (send payload None) w) in
        (send_state t w2 = Some (Awaiting None) ->
           send_state t (step (TimerFires t) w2) = Some (Awaiting (Some SleepResolved)))
        /\ (forall o, send_state t w2 = Some (Awaiting (Some o)) ->
              buffered w2 = 0%N ->
              send_state t (step (Resume t) w2) = Some SendFulfilled)
        /\ (send_state t w2 <> Some SendFulfilled -> (0 < buffered w2)%N ->
              send_state t (step (Resume t) w2) <> Some SendFulfilled)).
Proof.
  intros Hinv Hcl.
  destruct (resource_has_socket w Hinv) as (ws & Hws & Hrs).
  pose proof (send_eq w ws Hws payload None Hcl Hrs) as Hsend.
  assert (Hinv1 : resource_inv (exec (send payload None) w)).
  { rewrite send_is_step by exact Hinv. now apply resource_inv_step. }
  assert (Hsent1 : sent_payloads (exec (send payload None) w)
                   = (sent_payloads w ++ [payload])%list).
  { unfold exec, sent_payloads. now rewrite Hsend, Hws. }
  assert (Htask1 : sends (exec (send payload None) w) !! length (sends w)
                   = Some (mkSendTask None fresh_signal
                             (loop_state fresh_signal (sent payload ws)))).
  { unfold exec. rewrite Hsend. cbn [snd sends set_sends task_signal].
    rewrite lookup_app_r by lia. now rewrite Nat.sub_diag. }
  split; [now rewrite Hsend|]. split; [exact Hsent1|].
  split; [unfold exec, buffered; now rewrite Hsend, Hws|].
  split.
  { unfold send_state. rewrite Htask1. unfold buffered. rewrite Hws. reflexivity. }
  split.
  - intros evs payload2 Hcl2.
    pose proof (resource_inv_run evs _ Hinv1) as Hinv2.
    destruct (resource_has_socket _ Hinv2) as (ws2 & Hws2 & Hrs2).
    destruct (resource_run_sent_prefix evs _ Hinv1) as [between Hmore].
    exists between. split.
    + unfold exec at 1. rewrite (send_eq _ ws2 Hws2 payload2 None Hcl2 Hrs2).
      unfold sent_payloads at 1.
      cbn [snd webSocket set_sends set_webSocket sent sendCalls].
      unfold sent_payloads at 1 in Hmore. rewrite Hws2 in Hmore.
      rewrite Hmore, Hsent1, <- !app_assoc. reflexivity.
    + intros Hquiet.
      pose proof (resource_run_sent evs _ Hinv1 Hquiet) as Hsame.
      rewrite Hsame in Hmore.
      rewrite <- (app_nil_r (sent_payloads (exec (send payload None) w))) in Hmore at 1.
      apply app_inv_head in Hmore. now subst.
  - intros evs t w2.
    pose proof (resource_inv_run evs _ Hinv1) as Hinv2. fold w2 in Hinv2.
    destruct (resource_has_socket _ Hinv2) as (ws2 & Hws2 & _).
    destruct (resource_run_task evs _ _ _ Hinv1 Htask1) as (task & Htask & Hcaller).
    fold t w2 in Htask. cbn [t_caller] in Hcaller.
    assert (Hbuf : buffered w2 = bufferedAmount ws2)
      by (unfold buffered; now rewrite Hws2).
    split; [apply timer_step|]. split.
    + intros o Hst Hz. unfold send_state in Hst. rewrite Htask in Hst.
      inversion Hst as [Hst'].
      rewrite (resume_step w2 ws2 t task o Hws2 Htask Hst'), Hcaller.
      rewrite Hbuf in Hz. unfold resume_state, loop_state. rewrite Hz.
      now destruct o.
    + intros Hnot Hpos. rewrite Hbuf in Hpos. apply N.ltb_lt in Hpos.
      destruct (t_state task) as [[o|]| |] eqn:Hst.
      * rewrite (resume_step w2 ws2 t task o Hws2 Htask Hst), Hcaller.
        unfold resume_state, loop_state. rewrite Hpos, orb_true_r.
        destruct o; discriminate.
      * rewrite resume_step_idle; [exact Hnot|].
        intros o. unfold send_state. rewrite Htask. simpl. rewrite Hst. discriminate.
      * rewrite resume_step_idle; [exact Hnot|].
        intros o. unfold send_state. rewrite Htask. simpl. rewrite Hst. discriminate.
      * rewrite resume_step_idle; [exact Hnot|].
        intros o. unfold send_state. rewrite Htask. simpl. rewrite Hst. discriminate.
Qed.

Lemma send_commits_then_waits_witness :
  sent_payloads ping_pong = [UpText "ping"; UpText "pong"].
Proof.
  assert (Hinv : resource_inv wrapped)
    by (apply wrapped_resource_inv; reflexivity).
  destruct (send_commits_then_waits wrapped (UpText "ping") Hinv eq_refl)
    as (_ & _ & _ & _ & Horder & _).
  destruct (Horder [TransportMessage (TextFrame "hello")] (UpText "pong") eq_refl)
    as (between & Hsent & Hquiet).
  rewrite (Hquiet eq_refl) in Hsent. exact Hsent.
Defined.

(** C7: [listen(callback, {signal})] on a constructed resource returns
    without throwing and without subscribing when the caller's signal is
    already aborted, even if the resource is closed; otherwise it throws the
    closed error when the resource is closed; otherwise it adds one 'message'
    listener to the transport.  From then on, while that listener is
    registered, every message that arrives invokes the callback once with
    the event's data as it is.  The listener stays registered as long as
    neither the resource's close signal nor the caller's signal has fired; as
    soon as one of them has, it is no longer registered, and from any world
    in which it is not registered the callback is never invoked again. *)
Theorem listen_subscribes_until_signal (w : World) (cb : nat) (c : option nat) :
  resource_inv w ->
  (caller_aborted w c = true -> listen cb c w = (Return tt, w))
  /\ (caller_aborted w c = false -> closed w = true ->
        listen cb c w = (Throw VClosedError, w))
  /\ (caller_aborted w c = false -> closed w = false ->
        fst (listen cb c w) = Return tt
        /\ listeners_of (exec (listen cb c) w)
           = (listeners_of w ++ [subscribe (next_id w) cb c])%list
        /\ deliveries (exec (listen cb c) w) = deliveries w
        /\ forall evs,
             let k := next_id w in
             let w2 := run evs (exec (listen cb c) w) in
             (registered k w2 = true ->
                forall f ws2, webSocket w2 = Some ws2 -> readyState ws2 = OPEN ->
                  deliveries_to k (step (TransportMessage f) w2)
                  = (deliveries_to k w2
                     ++ [mkDelivery k cb (frame_data (binaryType ws2) f)])%list)
             /\ (closed w2 = false -> caller_aborted w2 c = false ->
                   registered k w2 = true)
             /\ (closed w2 = true \/ caller_aborted w2 c = true ->
                   registered k w2 = false)
             /\ (registered k w2 = false ->
                   forall evs',
                     registered k (run evs' w2) = false
                     /\ deliveries_to k (run evs' w2) = deliveries_to k w2)).
Proof.
  intros Hinv. destruct (resource_has_socket w Hinv) as (ws & Hws & _).
  split; [|split].
  - intros Hab. destruct c as [id|]; [|discriminate]. now apply listen_aborted_eq.
  - intros Hab Hcl. now apply (listen_closed_eq w).
  - intros Hab Hcl.
    destruct (listen_tracks cb c w Hinv Hab Hcl) as (Hls & Hdel & Htr).
    split; [now rewrite (listen_eq w ws Hws cb c Hab Hcl)|].
    split; [exact Hls|]. split; [exact Hdel|].
    intros evs k w2.
    pose proof (tracks_run _ evs _ Htr) as Htr2. fold w2 in Htr2.
    change (next_id w) with (l_id (subscribe (next_id w) cb c)) in k.
    split; [|split; [|split]].
    + intros Hreg f ws2 Hws2 Hrs2.
      now apply (registered_message_step (subscribe (next_id w) cb c) f w2 ws2).
    + intros Hopen Hquiet. apply registered_iff.
      exists (subscribe (next_id w) cb c). split; [|reflexivity].
      apply resource_run_keeps; [exact (proj1 Htr) | | exact Hopen |].
      * rewrite Hls. apply elem_of_app. right. now apply list_elem_of_singleton.
      * intros r Hr. destruct c as [id|]; cbn [subscribe l_signal] in Hr.
        -- apply elem_of_cons in Hr as [-> | Hr]; [exact Hopen|].
           apply list_elem_of_singleton in Hr. subst r. exact Hquiet.
        -- apply list_elem_of_singleton in Hr. subst r. exact Hopen.
    + intros [Hclosed | Hcaller].
      * apply (tracks_fired (subscribe (next_id w) cb c) w2 CloseSignal Htr2);
          [reflexivity | now left | exact Hclosed].
      * destruct c as [id|]; [|discriminate].
        apply (tracks_fired (subscribe (next_id w) cb (Some id)) w2 (CallerSignal id) Htr2);
          [reflexivity | right; now left | exact Hcaller].
    + intros Hreg evs'.
      now apply (unregistered_run (subscribe (next_id w) cb c) evs' w2).
Qed.

Lemma listen_subscribes_until_signal_witness :
  deliveries_to 3 heard_once = [mkDelivery 3 7 (DownText "one")]
  /\ registered 3 heard_once = false
  /\ listen 7 (Some 0) heard_once = (Return tt, heard_once).
Proof.
  assert (Hinv : resource_inv wrapped)
    by (apply wrapped_resource_inv; reflexivity).
  destruct (listen_subscribes_until_signal wrapped 7 (Some 0) Hinv)
    as (_ & _ & Hsub).
  destruct (Hsub eq_refl eq_refl) as (_ & _ & _ & Hlater).
  destruct (Hlater [TransportMessage (TextFrame "one"); Abort 0 (VString "stop")])
    as (_ & _ & Hfired & Hsilent).
  destruct (Hsilent (Hfired (or_intror eq_refl)) [TransportMessage (TextFrame "two")])
    as [Hreg Hdel].
  split; [exact Hdel|]. split; [exact Hreg|].
  exact (proj1 (listen_subscribes_until_signal heard_once 7 (Some 0)
                  (resource_inv_run _ _ Hinv)) eq_refl).
Defined.

(* ===================================================================== *)
(** * Further properties of the class                                     *)
(* ===================================================================== *)

(** ** The opener and the transport it creates *)

Lemma race_inv_opened sigs url protocols signal evs :
  race_inv signal (run evs (exec (open url protocols signal) (empty_world sigs))).
Proof. apply race_inv_run, open_race_inv. Qed.

Lemma pending_is_racing signal w :
  race_inv signal w -> p_state (opening w) = Pending -> racing signal w.
Proof.
  intros [H | [H | [H | [_ H]]]] Hp; [exact H| | |].
  - destruct H. discriminate Hp.
  - destruct H. discriminate Hp.
  - rewrite H in Hp. discriminate Hp.
Qed.

(** X1: the opener only ever listens: as long as [open] has not produced a
    resource, whatever has happened since the call (the caller's abort, a
    'close' or an 'error' of the transport, anything after them), no resource
    exists and neither [send] nor [close] was invoked on the transport; in
    particular an [open] that was aborted leaves the connection attempt
    running.  Once the promise is rejected, no listener is left on the
    transport or on the caller's signal. *)
Theorem unopened_transport_is_untouched (sigs : nat -> AbortSignal) (url : Url)
    (protocols : list string) (signal : option nat) (evs : list Event) :
  let w := run evs (exec (open url protocols signal) (empty_world sigs)) in
  p_state (opening w) <> Fulfilled ->
  has_resource w = false
  /\ sent_payloads w = []
  /\ close_calls w = []
  /\ (p_state (opening w) <> Pending ->
        listeners_of w = [] /\ abortListeners w = []).
Proof.
  intros w Hnot.
  destruct (race_inv_opened sigs url protocols signal evs)
    as [H | [H | [H | [_ H]]]]; fold w in H.
  - destruct H. do 3 (split; [reflexivity|]). intros Hp. now elim Hp.
  - destruct H. now repeat split.
  - destruct H. now repeat split.
  - rewrite H in Hnot. now elim Hnot.
Qed.

Lemma unopened_transport_is_untouched_witness :
  has_resource abandoned = false
  /\ close_calls abandoned = []
  /\ ready_state abandoned = Some OPEN.
Proof.
  unfold abandoned.
  assert (Hnot : p_state (opening
                   (run [Abort 0 (VString "stop"); TransportOpen]
                        (exec (open chat [] (Some 0)) (empty_world quiet))))
                 <> Fulfilled)
    by (vm_compute; discriminate).
  destruct (unopened_transport_is_untouched quiet chat [] (Some 0)
              [Abort 0 (VString "stop"); TransportOpen] Hnot)
    as (Hres & _ & Hcalls & _).
  split; [exact Hres|]. split; [exact Hcalls | reflexivity].
Defined.

(** X2: when the connection is established while [open] waits, the promise is
    fulfilled with a resource that is open: its close signal has not fired,
    its teardown is registered and has not run, the four listeners of the
    race are gone, and the transport carries exactly the constructor's two
    listeners, 'close' and 'error', both scoped to the close signal.  Nothing
    was sent or closed on the way. *)
Theorem established_connection_gives_open_resource (sigs : nat -> AbortSignal)
    (url : Url) (protocols : list string) (signal : option nat)
    (evs : list Event) (ws : WebSocket) :
  let w := run evs (exec (open url protocols signal) (empty_world sigs)) in
  p_state (opening w) = Pending ->
  webSocket w = Some ws ->
  readyState ws = CONNECTING ->
  opening (step TransportOpen w) = mkPromise Fulfilled 1
  /\ has_resource (step TransportOpen w) = true
  /\ closed (step TransportOpen w) = false
  /\ registered_teardowns (step TransportOpen w) = [closeTransport]
  /\ teardown_runs (step TransportOpen w) = []
  /\ List.map registration (listeners_of (step TransportOpen w))
     = [(ev_close, closeOnClose, [CloseSignal]);
        (ev_error, closeOnError, [CloseSignal])]
  /\ abortListeners (step TransportOpen w) = []
  /\ ready_state (step TransportOpen w) = Some OPEN
  /\ sent_payloads (step TransportOpen w) = []
  /\ close_calls (step TransportOpen w) = []
  /\ resource_inv (step TransportOpen w).
Proof.
  intros w Hp Hws Hrs.
  pose proof (pending_is_racing signal w
                (race_inv_opened sigs url protocols signal evs) Hp) as Hr.
  destruct Hr as [rs ba sigs' Hne Hab]. inversion Hws; subst ws.
  cbn [readyState] in Hrs. subst rs.
  cbn [step webSocket readyState]. unfold set_webSocket, set_readyState.
  cbn [webSocket signals abortListeners this opening sends deliveries next_id
       readyState binaryType bufferedAmount listeners sendCalls closeCalls].
  rewrite dispatch_open_racing by reflexivity.
  repeat split; try reflexivity. apply won_first.
Qed.

Lemma established_connection_gives_open_resource_witness :
  opening (step TransportOpen (run [] (exec (open chat [] None) (empty_world quiet))))
  = mkPromise Fulfilled 1
  /\ closed (step TransportOpen (run [] (exec (open chat [] None) (empty_world quiet))))
     = false.
Proof.
  assert (Hp : p_state (opening (run [] (exec (open chat [] None) (empty_world quiet))))
               = Pending) by (vm_compute; reflexivity).
  assert (Hws : webSocket (run [] (exec (open chat [] None) (empty_world quiet)))
                = Some (mkWebSocket CONNECTING arraybuffer 0 (raceListeners None) [] []))
    by (vm_compute; reflexivity).
  destruct (established_connection_gives_open_resource quiet chat [] None []
              (mkWebSocket CONNECTING arraybuffer 0 (raceListeners None) [] [])
              Hp Hws eq_refl)
    as (Hop & _ & Hcl & _).
  split; [exact Hop | exact Hcl].
Defined.

(** X3: when the platform's [WebSocket] constructor refuses the address, [open]
    does not throw: it returns a promise rejected with the constructor's
    exception.  The throw (line 61) comes before the registrations (lines
    64-67), so nothing is left on the caller's signal, no transport exists,
    and nothing that happens later changes that. *)
Theorem refused_address_rejects (sigs : nat -> AbortSignal) (text : string)
    (protocols : list string) (signal : option nat) (evs : list Event) :
  caller_aborted (empty_world sigs) signal = false ->
  let w0 := exec (open (Malformed text) protocols signal) (empty_world sigs) in
  fst (open (Malformed text) protocols signal (empty_world sigs)) = Return tt
  /\ opening w0 = mkPromise (Rejected (VDOMException "SyntaxError")) 1
  /\ opening (run evs w0) = opening w0
  /\ webSocket (run evs w0) = None
  /\ abortListeners (run evs w0) = []
  /\ has_resource (run evs w0) = false.
Proof.
  intros Hab w0. unfold w0, exec.
  rewrite (open_malformed signal text protocols sigs Hab). cbn [fst snd].
  split; [reflexivity|]. split; [reflexivity|].
  assert (Hun : unstarted
            (set_opening (mkPromise (Rejected (VDOMException "SyntaxError")) 1)
                         (empty_world sigs))) by constructor.
  revert Hun.
  generalize (set_opening (mkPromise (Rejected (VDOMException "SyntaxError")) 1)
                          (empty_world sigs)).
  induction evs as [|e evs IH]; intros w Hun.
  - destruct Hun. now repeat split.
  - cbn [run fold_left]. destruct (unstarted_step e w Hun) as [Hun' Hop].
    destruct (IH _ Hun') as (H1 & H2 & H3 & H4).
    repeat split; try assumption. unfold run in H1. congruence.
Qed.

Lemma refused_address_rejects_witness :
  opening (exec (open (Malformed "chat") [] (Some 0)) (empty_world quiet))
  = mkPromise (Rejected (VDOMException "SyntaxError")) 1
  /\ abortListeners
       (run [Abort 0 VUndefined]
            (exec (open (Malformed "chat") [] (Some 0)) (empty_world quiet))) = [].
Proof.
  destruct (refused_address_rejects quiet "chat" [] (Some 0) [Abort 0 VUndefined]
              eq_refl)
    as (_ & Hop & _ & _ & Hal & _).
  split; [exact Hop | exact Hal].
Defined.

(** ** What closing does to the transport *)

Lemma closed_step e w : resource_inv w -> closed w = true -> closed (step e w) = true.
Proof. intros Hinv. apply (sig_aborted_step e w CloseSignal Hinv). Qed.

Lemma closed_run evs w : resource_inv w -> closed w = true -> closed (run evs w) = true.
Proof. intros Hinv. apply (sig_aborted_run evs w CloseSignal Hinv). Qed.

(** X4: when the peer closes the connection, the resource closes with a
    [WebSocketError] carrying the code and the text of the 'close' event, and
    its teardown runs, but finds the transport already closed: [close] is not
    invoked on the transport.  No listener is left on the transport. *)
Theorem peer_close_needs_no_close_call (w : World) (event : CloseEvent) :
  resource_inv w ->
  closed w = false ->
  closeSignalOf (step (TransportClose event) w)
  = mkAbortSignal true
      (VWebSocketError (Some (ce_code event)) (Some (ce_reason event)))
  /\ teardown_runs (step (TransportClose event) w)
     = [VWebSocketError (Some (ce_code event)) (Some (ce_reason event))]
  /\ ready_state (step (TransportClose event) w) = Some CLOSED
  /\ close_calls (step (TransportClose event) w) = close_calls w
  /\ listeners_of (step (TransportClose event) w) = [].
Proof.
  intros Hinv Hcl. destruct Hinv; [|discriminate Hcl].
  cbn [step webSocket]. world_simpl.
  rewrite dispatch_close_open_resource by assumption.
  unfold exec. rewrite close_open_resource by assumption.
  now repeat split.
Qed.

Lemma peer_close_needs_no_close_call_witness :
  ready_state (step (TransportClose (mkCloseEvent 1000 "bye")) wrapped) = Some CLOSED
  /\ close_calls (step (TransportClose (mkCloseEvent 1000 "bye")) wrapped) = [].
Proof.
  assert (Hinv : resource_inv wrapped)
    by (apply wrapped_resource_inv; reflexivity).
  destruct (peer_close_needs_no_close_call wrapped (mkCloseEvent 1000 "bye")
              Hinv eq_refl)
    as (_ & _ & Hrs & Hcc & _).
  split; [exact Hrs | exact Hcc].
Defined.

(** X5: when the transport fires 'error', the resource closes with a
    [WebSocketError] that has neither code nor text.  If the transport is
    still open, the teardown closes it, handing over that error's absent code
    and text; if the transport is already closing or closed, [close] is not
    invoked on it. *)
Theorem transport_error_closes_resource (w : World) (ws : WebSocket) :
  resource_inv w ->
  closed w = false ->
  webSocket w = Some ws ->
  closeSignalOf (step TransportError w) = mkAbortSignal true (VWebSocketError None None)
  /\ teardown_runs (step TransportError w) = [VWebSocketError None None]
  /\ listeners_of (step TransportError w) = []
  /\ (readyState ws = OPEN ->
        close_calls (step TransportError w) = (closeCalls ws ++ [(None, None)])%list
        /\ ready_state (step TransportError w) = Some CLOSING)
  /\ (readyState ws <> OPEN ->
        close_calls (step TransportError w) = closeCalls ws
        /\ ready_state (step TransportError w) = Some (readyState ws)).
Proof.
  intros Hinv Hcl Hws. destruct Hinv; [|discriminate Hcl].
  inversion Hws; subst ws. cbn [step readyState closeCalls].
  rewrite dispatch_error_open_resource by assumption.
  unfold exec. rewrite close_open_resource by assumption.
  unfold closeSignalOf, teardown_runs, listeners_of, close_calls, ready_state,
    torn_down.
  destruct rs; try congruence; cbn; repeat split; try reflexivity;
    intros; congruence.
Qed.

Lemma transport_error_closes_resource_witness :
  close_calls (step TransportError wrapped) = [(None, None)]
  /\ ready_state (step TransportError wrapped) = Some CLOSING.
Proof.
  assert (Hinv : resource_inv wrapped)
    by (apply wrapped_resource_inv; reflexivity).
  destruct (transport_error_closes_resource wrapped
              (mkWebSocket OPEN blob 0 [closeListener 1; errorListener 2] [] [])
              Hinv eq_refl eq_refl)
    as (_ & _ & _ & Hopen & _).
  exact (Hopen eq_refl).
Defined.

Lemma close_calls_step e w :
  resource_inv w ->
  (closed (step e w) = closed w -> close_calls (step e w) = close_calls w)
  /\ exists more, close_calls (step e w) = (close_calls w ++ more)%list
                  /\ length more <= 1.
Proof.
  intros Hinv.
  assert (Hnil : forall l : list (option Z * option string),
            exists more, l = (l ++ more)%list /\ length more <= 1).
  { intros l. exists []. rewrite app_nil_r. split; [reflexivity | simpl; lia]. }
  step_cases Hinv e.
  all: try (destruct (aborted (sigs id))).
  all: try (destruct (_ && _)).
  all: unfold close_calls, closed, sig_aborted, torn_down; world_simpl.
  all: cbn [instance_open instance_closed closeSignal fresh_signal aborted].
  all: try (split; [reflexivity | apply Hnil]).
  all: try (split; [discriminate|]).
  all: try match goal with
       | |- context [match ?rs with CONNECTING => _ | _ => _ end] => destruct rs
       end.
  all: cbn [closeCalls]; try apply Hnil.
  all: eexists; split; [reflexivity | simpl; lia].
Qed.

(** X6: over its whole life the resource invokes [close] on its transport at
    most once, and only as part of its own close: whatever happens, the
    transport's record of close calls grows by at most one entry, by none
    while the resource is open, and by none once the resource has closed. *)
Theorem transport_closed_at_most_once (w : World) (evs : list Event) :
  resource_inv w ->
  exists more,
    close_calls (run evs w) = (close_calls w ++ more)%list
    /\ length more <= 1
    /\ (closed (run evs w) = false -> more = [])
    /\ (closed w = true -> more = []).
Proof.
  revert w. induction evs as [|e evs IH]; intros w Hinv.
  - exists []. rewrite app_nil_r. split; [reflexivity|]. split; [simpl; lia|].
    split; intros _; reflexivity.
  - cbn [run fold_left].
    pose proof (resource_inv_step e w Hinv) as Hinv1.
    destruct (close_calls_step e w Hinv) as (Hsame & m1 & H1 & Hl1).
    destruct (IH (step e w) Hinv1) as (m2 & H2 & Hl2 & Hopen2 & Hclosed2).
    unfold run in H2, Hopen2.
    destruct (closed (step e w)) eqn:Hc1.
    + specialize (Hclosed2 eq_refl). subst m2. rewrite app_nil_r in H2.
      exists m1. split; [congruence|]. split; [exact Hl1|]. split.
      * intros Habs. pose proof (closed_run evs _ Hinv1 Hc1) as Hc.
        unfold run in Hc. congruence.
      * intros Hc. apply (app_inv_head (close_calls w)).
        rewrite app_nil_r, <- H1. apply Hsame. congruence.
    + destruct (closed w) eqn:Hc0.
      { pose proof (closed_step e w Hinv Hc0). congruence. }
      exists m2. split.
      * rewrite H2. f_equal. apply Hsame. congruence.
      * split; [exact Hl2|]. split; [exact Hopen2 | discriminate].
Qed.

Lemma transport_closed_at_most_once_witness :
  exists more,
    close_calls (run [CallClose VUndefined; TransportError; CallClose (VNumber 1)]
                     wrapped)
    = more
    /\ length more <= 1.
Proof.
  assert (Hinv : resource_inv wrapped)
    by (apply wrapped_resource_inv; reflexivity).
  destruct (transport_closed_at_most_once wrapped
              [CallClose VUndefined; TransportError; CallClose (VNumber 1)] Hinv)
    as (more & Hcalls & Hlen & _).
  exists more. split; [exact Hcalls | exact Hlen].
Defined.

(** X7: once the resource has closed, the class holds no listener on the
    transport and never registers one again, and no callback given to
    [listen] is ever invoked again, whatever happens afterwards. *)
Theorem closed_resource_listens_to_nothing (w : World) (evs : list Event) :
  resource_inv w ->
  closed w = true ->
  listeners_of (run evs w) = []
  /\ deliveries (run evs w) = deliveries w.
Proof.
  revert w. induction evs as [|e evs IH]; intros w Hinv Hcl.
  - split; [|reflexivity]. destruct Hinv; [discriminate Hcl | reflexivity].
  - cbn [run fold_left].
    destruct (IH (step e w) (resource_inv_step e w Hinv) (closed_step e w Hinv Hcl))
      as [Hl Hd].
    split; [exact Hl|]. unfold run in Hd. rewrite Hd.
    rewrite (resource_step_deliveries e w Hinv).
    destruct Hinv; [discriminate Hcl|].
    unfold delivered. destruct e; cbn; rewrite ?app_nil_r; try reflexivity.
    destruct rs; cbn; now rewrite ?app_nil_r.
Qed.

Lemma closed_resource_listens_to_nothing_witness :
  listeners_of
    (run [CallListen 7 (Some 0); TransportMessage (TextFrame "late")]
         (step (CallClose VUndefined) wrapped)) = []
  /\ deliveries
       (run [CallListen 7 (Some 0); TransportMessage (TextFrame "late")]
            (step (CallClose VUndefined) wrapped))
     = deliveries (step (CallClose VUndefined) wrapped).
Proof.
  assert (Hinv : resource_inv (step (CallClose VUndefined) wrapped))
    by (apply resource_inv_step, wrapped_resource_inv; reflexivity).
  assert (Hcl : closed (step (CallClose VUndefined) wrapped) = true)
    by (vm_compute; reflexivity).
  exact (closed_resource_listens_to_nothing (step (CallClose VUndefined) wrapped)
           [CallListen 7 (Some 0); TransportMessage (TextFrame "late")]
           Hinv Hcl).
Defined.

(** ** Inbound messages and subscriptions *)

Lemma message_listeners_open rs bt ba idc ide subs scs ccs sigs op tasks dels nid :
  Forall (subscription sigs) subs ->
  message_listeners
    (mkWorld (Some (mkWebSocket rs bt ba
                      (closeListener idc :: errorListener ide :: subs) scs ccs))
             sigs [] (Some instance_open) op tasks dels nid)
  = subs.
Proof.
  intros Hsubs. unfold message_listeners, listeners_of. cbn.
  now rewrite (filter_subscriptions_type sigs subs ev_message Hsubs).
Qed.

(** X8: a message that arrives on the open transport is handed to every
    subscription made by [listen] and still in place, once each, in the order
    in which the subscriptions were made, and as the transport decoded it.
    Nothing else invokes a callback: no other event, and no message that
    arrives while the transport is not open, adds an invocation.  Receiving a
    message changes nothing else: the transport and the resource stay as they
    are. *)
Theorem message_reaches_every_subscription (w : World) (ws : WebSocket) :
  resource_inv w ->
  webSocket w = Some ws ->
  (forall f,
     readyState ws = OPEN ->
     deliveries (step (TransportMessage f) w)
     = (deliveries w
        ++ List.map (fun l => mkDelivery (l_id l) (callback_of l)
                                (frame_data (binaryType ws) f))
                    (message_listeners w))%list)
  /\ (forall f,
        readyState ws <> OPEN ->
        deliveries (step (TransportMessage f) w) = deliveries w)
  /\ (forall f,
        webSocket (step (TransportMessage f) w) = webSocket w
        /\ this (step (TransportMessage f) w) = this w
        /\ sends (step (TransportMessage f) w) = sends w)
  /\ (forall e,
        (forall f, e <> TransportMessage f) ->
        deliveries (step e w) = deliveries w).
Proof.
  intros Hinv Hws. split; [|split; [|split]].
  - intros f Hrs. rewrite (resource_step_deliveries _ w Hinv).
    unfold delivered, message_listeners, listeners_of. now rewrite Hws, Hrs.
  - intros f Hrs. rewrite (resource_step_deliveries _ w Hinv).
    unfold delivered. rewrite Hws.
    destruct (readyState ws); try congruence; now rewrite app_nil_r.
  - intros f. destruct Hinv; cbn [step webSocket readyState];
      destruct rs; try rewrite dispatch_message_open_resource by assumption;
      try rewrite dispatch_closed_resource; now repeat split.
  - intros e Hne. rewrite (resource_step_deliveries e w Hinv).
    unfold delivered. destruct e; try (now rewrite app_nil_r).
    now elim (Hne f).
Qed.

Lemma message_reaches_every_subscription_witness :
  deliveries
    (step (TransportMessage (TextFrame "hi"))
          (run [CallListen 7 None; CallListen 8 None] wrapped))
  = [mkDelivery 3 7 (DownText "hi"); mkDelivery 4 8 (DownText "hi")].
Proof.
  assert (Hinv : resource_inv (run [CallListen 7 None; CallListen 8 None] wrapped))
    by (apply resource_inv_run, wrapped_resource_inv; reflexivity).
  assert (Hws : webSocket (run [CallListen 7 None; CallListen 8 None] wrapped)
                = Some (mkWebSocket OPEN blob 0
                          [closeListener 1; errorListener 2;
                           subscribe 3 7 None; subscribe 4 8 None] [] []))
    by (vm_compute; reflexivity).
  destruct (message_reaches_every_subscription _ _ Hinv Hws) as (Hmsg & _).
  rewrite (Hmsg (TextFrame "hi") eq_refl). vm_compute. reflexivity.
Defined.

(** X9: [listen] wraps the callback in a new closure at every call (line 164),
    so the platform never takes two subscriptions for one: a callback given
    to [listen] twice is invoked twice for every message, after the
    subscriptions made earlier. *)
Theorem listening_twice_delivers_twice (w : World) (ws : WebSocket) (cb : nat)
    (c1 c2 : option nat) (f : Frame) :
  resource_inv w ->
  closed w = false ->
  caller_aborted w c1 = false ->
  caller_aborted w c2 = false ->
  webSocket w = Some ws ->
  readyState ws = OPEN ->
  deliveries (step (TransportMessage f) (exec (listen cb c2) (exec (listen cb c1) w)))
  = (deliveries (step (TransportMessage f) w)
     ++ [mkDelivery (next_id w) cb (frame_data (binaryType ws) f);
         mkDelivery (S (next_id w)) cb (frame_data (binaryType ws) f)])%list.
Proof.
  intros Hinv Hcl Hc1 Hc2 Hws Hrs.
  assert (Hinv1 : resource_inv (exec (listen cb c1) w)).
  { rewrite listen_is_step by exact Hinv. now apply resource_inv_step. }
  assert (H1 : exec (listen cb c1) w
               = set_next_id (S (next_id w))
                   (set_webSocket
                      (Some (set_listeners
                               (listeners ws ++ [subscribe (next_id w) cb c1]) ws)) w)).
  { unfold exec. now rewrite (listen_eq w ws Hws cb c1 Hc1 Hcl). }
  rewrite H1 in *.
  assert (Hinv2 : resource_inv
            (exec (listen cb c2)
               (set_next_id (S (next_id w))
                  (set_webSocket
                     (Some (set_listeners
                              (listeners ws ++ [subscribe (next_id w) cb c1]) ws)) w)))).
  { rewrite listen_is_step by exact Hinv1. now apply resource_inv_step. }
  revert Hinv2. unfold exec.
  erewrite listen_eq; [|reflexivity|exact Hc2|exact Hcl].
  cbn [snd]. intros Hinv2.
  rewrite (resource_step_deliveries _ _ Hinv2), (resource_step_deliveries _ w Hinv).
  unfold delivered. rewrite Hws, Hrs. world_simpl. rewrite Hrs.
  rewrite <- (app_assoc (listeners ws)).
  now rewrite List.filter_app, List.map_app, app_assoc.
Qed.

Lemma listening_twice_delivers_twice_witness :
  deliveries
    (step (TransportMessage (TextFrame "hi"))
          (exec (listen 7 None) (exec (listen 7 None) wrapped)))
  = (deliveries (step (TransportMessage (TextFrame "hi")) wrapped)
     ++ [mkDelivery 3 7 (DownText "hi"); mkDelivery 4 7 (DownText "hi")])%list.
Proof.
  assert (Hinv : resource_inv wrapped)
    by (apply wrapped_resource_inv; reflexivity).
  assert (Hws : webSocket wrapped
                = Some (mkWebSocket OPEN blob 0 [closeListener 1; errorListener 2] [] []))
    by (vm_compute; reflexivity).
  exact (listening_twice_delivers_twice wrapped _ 7 None None (TextFrame "hi")
           Hinv eq_refl eq_refl eq_refl Hws eq_refl).
Defined.

(** ** A caller's signal *)

Lemma abort_task_other id r (task : SendTask) :
  t_caller task <> Some id -> abort_task (CallerSignal id) r task = task.
Proof.
  intros Hne. unfold abort_task. cbn [task_depends].
  destruct (t_caller task) as [j|]; cbn [option_nat_eqb]; [|reflexivity].
  destruct (Nat.eqb_spec j id); [subst; congruence | reflexivity].
Qed.

(** X10: aborting a caller's signal never closes anything: the resource object,
    the transport's state, its buffer and the records of what was sent and
    closed stay as they are, and no callback is invoked.  On the transport it
    only removes listeners: every listener not scoped to that signal stays
    registered, and none is added.  A [send] made with another signal, or
    with none, is not affected. *)
Theorem caller_abort_is_local (w : World) (id : nat) (r : Value) :
  resource_inv w ->
  this (step (Abort id r) w) = this w
  /\ ready_state (step (Abort id r) w) = ready_state w
  /\ buffered (step (Abort id r) w) = buffered w
  /\ sent_payloads (step (Abort id r) w) = sent_payloads w
  /\ close_calls (step (Abort id r) w) = close_calls w
  /\ deliveries (step (Abort id r) w) = deliveries w
  /\ (forall l, l ∈ listeners_of w -> scoped_to (CallerSignal id) l = false ->
        l ∈ listeners_of (step (Abort id r) w))
  /\ (forall l, l ∈ listeners_of (step (Abort id r) w) -> l ∈ listeners_of w)
  /\ (forall t task, sends w !! t = Some task -> t_caller task <> Some id ->
        sends (step (Abort id r) w) !! t = Some task).
Proof.
  intros Hinv.
  destruct Hinv; cbn [step]; rewrite ?abort_open_resource, ?abort_closed_resource;
    destruct (aborted (sigs id)); unfold ready_state, buffered, sent_payloads,
      close_calls, listeners_of; cbn.
  all: do 6 (split; [reflexivity|]).
  all: split; [|split]; try (intros; assumption).
  all: try (intros t task Ht Hne; change (List.map ?g ?l) with (g <$> l);
            rewrite list_lookup_fmap, Ht; cbn; now rewrite abort_task_other).
  - intros l Hl Hsc. apply elem_of_cons in Hl as [-> | Hl]; [now left|].
    apply elem_of_cons in Hl as [-> | Hl]; [right; now left|].
    do 2 right. apply list_elem_of_In, List.filter_In. split.
    + now apply list_elem_of_In.
    + now rewrite Hsc.
  - intros l Hl. apply elem_of_cons in Hl as [-> | Hl]; [now left|].
    apply elem_of_cons in Hl as [-> | Hl]; [right; now left|].
    do 2 right. now apply elem_of_filter_bool in Hl.
Qed.

Lemma caller_abort_is_local_witness :
  this (step (Abort 0 (VString "stop")) (run [CallListen 7 (Some 0)] wrapped))
  = this (run [CallListen 7 (Some 0)] wrapped)
  /\ close_calls (step (Abort 0 (VString "stop")) (run [CallListen 7 (Some 0)] wrapped))
     = close_calls (run [CallListen 7 (Some 0)] wrapped).
Proof.
  assert (Hinv : resource_inv (run [CallListen 7 (Some 0)] wrapped))
    by (apply resource_inv_run, wrapped_resource_inv; reflexivity).
  destruct (caller_abort_is_local _ 0 (VString "stop") Hinv)
    as (Hthis & _ & _ & _ & Hcc & _).
  split; [exact Hthis | exact Hcc].
Defined.

(** ** The promises of send *)

Lemma abort_task_settled s r (x : SendTask) :
  (t_state (abort_task s r x) = SendFulfilled -> t_state x = SendFulfilled)
  /\ (settled (t_state x) = true -> t_state (abort_task s r x) = t_state x).
Proof.
  unfold abort_task. destruct (_ && _); [|now split].
  cbn [t_state]. destruct (t_state x) as [[o|]| |]; split; intros H; cbn in H; congruence.
Qed.

Lemma send_state_map (g : SendTask -> SendTask) w tasks (t : nat) :
  send_state t (set_sends (List.map g tasks) w)
  = (fun x => t_state (g x)) <$> tasks !! t.
Proof.
  unfold send_state. cbn [sends set_sends].
  change (List.map g tasks) with (g <$> tasks).
  rewrite list_lookup_fmap. now destruct (tasks !! t).
Qed.

Lemma resume_state_fulfilled c signal o w ws :
  resume_state c signal o w ws = SendFulfilled -> bufferedAmount ws = 0%N.
Proof.
  unfold resume_state, loop_state. destruct o as [|error].
  - destruct (0 <? bufferedAmount ws)%N eqn:E; [discriminate|].
    intros _. apply N.ltb_ge in E. lia.
  - destruct (0 <? bufferedAmount ws)%N eqn:E.
    + rewrite orb_true_r. discriminate.
    + intros _. apply N.ltb_ge in E. lia.
Qed.

Lemma settled_after_insert (tasks : list SendTask) (t t0 : nat) task0 st' (ba : N) :
  tasks !! t0 = Some task0 ->
  settled (t_state task0) = false ->
  (st' = SendFulfilled -> ba = 0%N) ->
  (t_state <$> tasks !! t <> Some SendFulfilled ->
   t_state <$> <[t0 := set_task_state st' task0]> tasks !! t = Some SendFulfilled ->
   ba = 0%N)
  /\ (forall st, t_state <$> tasks !! t = Some st -> settled st = true ->
        t_state <$> <[t0 := set_task_state st' task0]> tasks !! t = Some st).
Proof.
  intros Ht0 Hun Hba. destruct (decide (t = t0)) as [->|Hne].
  - rewrite list_lookup_insert_eq by (eapply lookup_lt_Some; exact Ht0).
    rewrite Ht0. cbn. split.
    + intros _ Hnow. apply Hba. congruence.
    + intros st Hst Hset. congruence.
  - rewrite list_lookup_insert_ne by congruence. split; [intros Hnot Hnow; now elim Hnot|].
    now intros st Hst _.
Qed.

Lemma settled_after_append (tasks : list SendTask) (t : nat) new (ba : N) :
  (t_state new = SendFulfilled -> ba = 0%N) ->
  (t_state <$> tasks !! t <> Some SendFulfilled ->
   t_state <$> (tasks ++ [new])%list !! t = Some SendFulfilled ->
   ba = 0%N)
  /\ (forall st, t_state <$> tasks !! t = Some st -> settled st = true ->
        t_state <$> (tasks ++ [new])%list !! t = Some st).
Proof.
  intros Hba. destruct (lt_dec t (length tasks)) as [Hlt|Hge].
  - rewrite lookup_app_l by exact Hlt. split; [intros Hnot Hnow; now elim Hnot|].
    now intros st Hst _.
  - rewrite (lookup_ge_None_2 tasks t) by lia. split; [|intros st Hst; discriminate Hst].
    intros _. rewrite lookup_app_r by lia.
    destruct (t - length tasks) as [|n]; cbn; [|discriminate].
    intros Hnow. apply Hba. congruence.
Qed.

Lemma send_step_state e w (t : nat) :
  resource_inv w ->
  (send_state t w <> Some SendFulfilled ->
   send_state t (step e w) = Some SendFulfilled ->
   buffered (step e w) = 0%N)
  /\ (forall st, send_state t w = Some st -> settled st = true ->
        send_state t (step e w) = Some st).
Proof.
  intros Hinv. step_cases Hinv e.
  all: try (destruct (aborted (sigs id))).
  all: try (destruct (_ && _)).
  all: world_simpl.
  all: try (split; [intros Hnot Hnow; now elim Hnot | intros st Hst _; exact Hst]).
  all: try (change (mkWorld ?a ?b ?c ?d ?e (List.map ?g tasks) ?f ?h)
              with (set_sends (List.map g tasks) (mkWorld a b c d e tasks f h));
            rewrite send_state_map; unfold send_state; cbn [sends];
            destruct (tasks !! t) as [x|]; cbn [fmap option_fmap option_map];
            [ pose proof (fun s r => abort_task_settled s r x) as Hab;
              split;
              [ intros Hnot Hnow; inversion Hnow as [Hn]; apply Hab in Hn; congruence
              | intros st Hst Hset; inversion Hst; subst; f_equal; now apply Hab ]
            | split; [intros _ Hnow; discriminate Hnow | intros st Hst; discriminate Hst] ]).
  all: unfold send_state, buffered; cbn [sends webSocket bufferedAmount].
  all: try (eapply settled_after_insert;
            [ exact Htask | now rewrite Hstate
            | first [ discriminate | apply resume_state_fulfilled ] ]).
  all: apply settled_after_append; cbn [t_state]; try discriminate.
  unfold loop_state, sent. cbn [bufferedAmount].
  destruct (0 <? ba + byteLength payload)%N eqn:E; [discriminate|].
  intros _. apply N.ltb_ge in E. lia.
Qed.

(** X11: a [send] is never fulfilled while bytes are buffered on the transport,
    whoever handed them over: whatever event fulfils the promise of a [send],
    the buffer is empty at that moment.  A [send] whose payload has reached
    the network therefore still waits for the payloads handed over after it.
    Once the promise of a [send] is fulfilled or rejected, nothing changes
    it. *)
Theorem send_is_fulfilled_only_when_drained (w : World) (evs : list Event)
    (e : Event) (t : nat) :
  resource_inv w ->
  (send_state t (run evs w) <> Some SendFulfilled ->
   send_state t (step e (run evs w)) = Some SendFulfilled ->
   buffered (step e (run evs w)) = 0%N)
  /\ (forall st, send_state t w = Some st -> settled st = true ->
        send_state t (run evs w) = Some st).
Proof.
  intros Hinv. split.
  - apply send_step_state. now apply resource_inv_run.
  - revert w Hinv. induction evs as [|e' evs IH]; intros w Hinv st Hst Hset;
      [exact Hst|].
    cbn [run fold_left]. apply (IH (step e' w)); [now apply resource_inv_step| |exact Hset].
    now apply (send_step_state e' w t Hinv).
Qed.

Lemma send_is_fulfilled_only_when_drained_witness :
  send_state 0 (run [TransportFlush 4; TimerFires 0] two_pending)
  = Some (Awaiting (Some SleepResolved))
  /\ send_state 0 (step (Resume 0) (run [TransportFlush 4; TimerFires 0] two_pending))
     <> Some SendFulfilled.
Proof.
  assert (Hinv : resource_inv two_pending)
    by (apply resource_inv_run, wrapped_resource_inv; reflexivity).
  split; [vm_compute; reflexivity|].
  intros Hnow.
  assert (Hnot : send_state 0 (run [TransportFlush 4; TimerFires 0] two_pending)
                 <> Some SendFulfilled) by (vm_compute; discriminate).
  pose proof (proj1 (send_is_fulfilled_only_when_drained two_pending
                       [TransportFlush 4; TimerFires 0] (Resume 0) 0 Hinv)
                Hnot Hnow) as Hz.
  vm_compute in Hz. discriminate Hz.
Defined.

(** ** The binary type of a wrapped transport *)

Lemma binary_type_step e w :
  resource_inv w -> binary_type (step e w) = binary_type w.
Proof.
  intros Hinv. step_cases Hinv e.
  all: try (destruct (aborted (sigs id))).
  all: try (destruct (_ && _)).
  all: unfold binary_type; world_simpl; cbn [fmap option_fmap option_map binaryType].
  all: now rewrite ?torn_down_binaryType.
Qed.

(** X12: the constructor does not touch the transport's binary type, and nothing
    the resource does later changes it: only [open] sets 'arraybuffer' (line
    62), on the transport it creates itself.  A resource constructed directly
    around a transport therefore forwards every message as that transport's
    own binary type decodes it; around a 'blob' transport, no listener ever
    receives an ArrayBuffer. *)
Theorem direct_construction_keeps_binary_type (ws : WebSocket)
    (sigs : nat -> AbortSignal) (evs : list Event) :
  readyState ws = OPEN ->
  listeners ws = [] ->
  let w := run evs (exec WebSocketResource_new (world_with ws sigs)) in
  binary_type (exec WebSocketResource_new (world_with ws sigs)) = Some (binaryType ws)
  /\ binary_type w = Some (binaryType ws)
  /\ (forall d, d ∈ deliveries w -> exists f, d_data d = frame_data (binaryType ws) f)
  /\ (binaryType ws = blob ->
        forall d bytes, d ∈ deliveries w -> d_data d <> DownArrayBuffer bytes).
Proof.
  intros Hrs Hls w.
  pose proof (wrapped_resource_inv ws sigs Hrs Hls) as Hinv0.
  assert (Hbt0 : binary_type (exec WebSocketResource_new (world_with ws sigs))
                 = Some (binaryType ws)).
  { unfold exec. now rewrite (new_open (world_with ws sigs) ws eq_refl Hrs). }
  assert (Hd0 : Forall (fun d => exists f, d_data d = frame_data (binaryType ws) f)
                  (deliveries (exec WebSocketResource_new (world_with ws sigs)))).
  { unfold exec. rewrite (new_open (world_with ws sigs) ws eq_refl Hrs). constructor. }
  assert (Hall : binary_type w = Some (binaryType ws)
                 /\ Forall (fun d => exists f, d_data d = frame_data (binaryType ws) f)
                      (deliveries w)).
  { unfold w. revert Hinv0 Hbt0 Hd0.
    generalize (exec WebSocketResource_new (world_with ws sigs)).
    induction evs as [|e evs IH]; intros w0 Hinv0 Hbt0 Hd0; [now split|].
    cbn [run fold_left]. apply IH.
    - now apply resource_inv_step.
    - now rewrite binary_type_step.
    - rewrite (resource_step_deliveries e w0 Hinv0). apply Forall_app. split; [exact Hd0|].
      unfold delivered. unfold binary_type in Hbt0.
      destruct e; try constructor.
      destruct (webSocket w0) as [ws0|]; [|constructor].
      inversion Hbt0 as [Hbt]. destruct (readyState ws0); try constructor.
      apply Forall_forall. intros d Hd. apply list_elem_of_In, List.in_map_iff in Hd.
      destruct Hd as (l & <- & _). now exists f. }
  destruct Hall as [Hbt Hd]. split; [exact Hbt0|]. split; [exact Hbt|]. split.
  - intros d Hin. exact (proj1 (Forall_forall _ _) Hd d Hin).
  - intros Hblob d bytes Hin.
    destruct (proj1 (Forall_forall _ _) Hd d Hin) as [f Hf].
    rewrite Hf, Hblob. now destruct f.
Qed.

Lemma direct_construction_keeps_binary_type_witness :
  binary_type (run [CallListen 7 None; TransportMessage (BinaryFrame [])]
                   (exec WebSocketResource_new (world_with open_socket quiet)))
  = Some blob.
Proof.
  exact (proj1 (proj2 (direct_construction_keeps_binary_type open_socket quiet
                         [CallListen 7 None; TransportMessage (BinaryFrame [])]
                         eq_refl eq_refl))).
Defined.

(** ** The teardown callback and the opener's cleanup *)








(** ** The order of the payloads *)

(** X15: while the resource is open, the transport has been handed exactly the
    payloads of the [send] calls, one per call and in call order, whatever
    happened between the calls (timers, messages, aborted signals, listeners
    coming and going): nothing else hands a payload to the transport, and no
    payload is handed over twice or held back. *)
Theorem transport_gets_payloads_in_call_order (w : World) (evs : list Event) :
  resource_inv w ->
  closed (run evs w) = false ->
  forallb unsigned evs = true ->
  sent_payloads (run evs w) = (sent_payloads w ++ payloads_of evs)%list.
Proof.
  revert w. induction evs as [|e evs IH]; intros w Hinv Hcl Hun.
  - cbn. now rewrite app_nil_r.
  - cbn [run fold_left] in *. cbn [forallb] in Hun.
    apply andb_true_iff in Hun as [He Hun].
    pose proof (resource_inv_step e w Hinv) as Hinv1.
    assert (Hcl1 : closed (step e w) = false).
    { destruct (closed (step e w)) eqn:E; [|reflexivity].
      pose proof (closed_run evs _ Hinv1 E) as Hc. unfold run in Hc. congruence. }
    assert (Hcl0 : closed w = false).
    { destruct (closed w) eqn:E; [|reflexivity].
      pose proof (closed_step e w Hinv E). congruence. }
    change (fold_left (fun w' e0 => step e0 w') evs (step e w))
      with (run evs (step e w)).
    rewrite (IH (step e w) Hinv1 Hcl Hun).
    destruct (is_send e) eqn:Hs.
    + destruct e as [| | | | | | | | | |payload [id|]|]; try discriminate.
      destruct (resource_has_socket w Hinv) as (ws & Hws & Hrs).
      rewrite <- send_is_step by exact Hinv. unfold exec.
      rewrite (send_eq w ws Hws payload None Hcl0 Hrs).
      unfold sent_payloads at 1. cbn [snd webSocket set_sends set_webSocket sent sendCalls].
      unfold sent_payloads. rewrite Hws. cbn. now rewrite <- app_assoc.
    + rewrite (resource_step_sent e w Hinv Hs). f_equal.
      now destruct e.
Qed.

Lemma transport_gets_payloads_in_call_order_witness :
  sent_payloads
    (run [CallSend (UpText "a") None; TransportMessage (TextFrame "x");
          CallSend (UpText "b") None; TimerFires 0; CallSend (UpText "c") None]
         wrapped)
  = [UpText "a"; UpText "b"; UpText "c"].
Proof.
  assert (Hinv : resource_inv wrapped)
    by (apply wrapped_resource_inv; reflexivity).
  assert (Hcl : closed
            (run [CallSend (UpText "a") None; TransportMessage (TextFrame "x");
                  CallSend (UpText "b") None; TimerFires 0; CallSend (UpText "c") None]
                 wrapped) = false) by (vm_compute; reflexivity).
  exact (transport_gets_payloads_in_call_order wrapped _ Hinv Hcl eq_refl).
Defined.

(** ** Aborting a send that waits *)

Lemma signals_abort_step id r w :
  resource_inv w -> aborted (signals w id) = false ->
  caller_aborted (step (Abort id r) w) (Some id) = true.
Proof.
  intros Hinv Hsig.
  destruct Hinv; cbn [step]; rewrite ?abort_open_resource, ?abort_closed_resource;
    cbn [signals] in *; rewrite Hsig; cbn; now rewrite Nat.eqb_refl.
Qed.

(** X16: a [send] made with a signal and still waiting for the buffer is rejected
    with the abort reason when the caller aborts the signal during the wait,
    whether or not the bytes have reached the network in the meantime: the
    [catch] block rethrows as soon as it finds the caller's signal aborted
    (line 147).  The payload was handed to the transport all the same. *)
Theorem aborted_wait_rejects_with_abort_reason (w : World) (payload : UpValue)
    (id : nat) (n : N) (r : Value) :
  resource_inv w ->
  closed w = false ->
  aborted (signals w id) = false ->
  (0 < buffered w + byteLength payload)%N ->
  let t := length (sends w) in
  let w1 := run [CallSend payload (Some id); TransportFlush n; Abort id r] w in
  send_state t w1 = Some (Awaiting (Some (SleepRejected r)))
  /\ send_state t (step (Resume t) w1) = Some (SendRejected r)
  /\ sent_payloads (step (Resume t) w1) = (sent_payloads w ++ [payload])%list.
Proof.
  intros Hinv Hcl Hsig Hpos t w1.
  destruct (resource_has_socket w Hinv) as (ws & Hws & Hrs).
  assert (Hbuf : buffered w = bufferedAmount ws) by (unfold buffered; now rewrite Hws).
  rewrite Hbuf in Hpos. apply N.ltb_lt in Hpos.
  pose proof (send_eq w ws Hws payload (Some id) Hcl Hrs) as Hsend.
  set (task := mkSendTask (Some id) (signals w id) (Awaiting None)).
  set (w2 := step (TransportFlush n) (step (CallSend payload (Some id)) w)).
  assert (Hinv2 : resource_inv w2) by (unfold w2; now do 2 apply resource_inv_step).
  assert (Hw2 : w2 = set_webSocket
                       (Some (set_bufferedAmount
                                (bufferedAmount ws + byteLength payload - n)%N
                                (sent payload ws)))
                       (set_sends (sends w ++ [task]) w)).
  { unfold w2. rewrite <- (send_is_step payload (Some id) w Hinv). unfold exec.
    rewrite Hsend. cbn [snd step webSocket set_sends set_webSocket].
    unfold loop_state, sleep, task, task_signal. cbn [bufferedAmount sent].
    now rewrite Hpos, Hsig. }
  assert (Htask : sends w2 !! t = Some task).
  { rewrite Hw2. cbn [sends set_sends set_webSocket]. unfold t.
    rewrite lookup_app_r by lia. now rewrite Nat.sub_diag. }
  assert (Hsig2 : aborted (signals w2 id) = false) by (now rewrite Hw2).
  assert (Hwait : send_state t w1 = Some (Awaiting (Some (SleepRejected r)))).
  { change w1 with (step (Abort id r) w2).
    now apply (sleep_cancelled_by_caller w2 t task id r). }
  split; [exact Hwait|].
  change w1 with (step (Abort id r) w2) in *.
  pose proof (resource_inv_step (Abort id r) w2 Hinv2) as Hinv3.
  destruct (resource_has_socket _ Hinv3) as (ws3 & Hws3 & _).
  unfold send_state in Hwait.
  destruct (sends (step (Abort id r) w2) !! t) as [task3|] eqn:Ht3; [|discriminate].
  cbn in Hwait. inversion Hwait as [Hst3].
  destruct (resource_step_task (Abort id r) w2 t task Hinv2 Htask) as (x & Hx & Hcx).
  rewrite Ht3 in Hx. inversion Hx; subst x. cbn [t_caller task] in Hcx.
  split.
  - rewrite (resume_step _ ws3 t task3 _ Hws3 Ht3 Hst3), Hcx.
    unfold resume_state. now rewrite (signals_abort_step id r w2 Hinv2 Hsig2).
  - rewrite (resource_step_sent (Resume t) _ Hinv3 eq_refl).
    rewrite (resource_step_sent (Abort id r) _ Hinv2 eq_refl).
    rewrite Hw2. unfold sent_payloads. cbn. now rewrite Hws.
Qed.

Lemma aborted_wait_rejects_with_abort_reason_witness :
  send_state 0
    (step (Resume 0)
       (run [CallSend (UpText "test") (Some 0); TransportFlush 4;
             Abort 0 (VString "stop")] wrapped))
  = Some (SendRejected (VString "stop")).
Proof.
  assert (Hinv : resource_inv wrapped)
    by (apply wrapped_resource_inv; reflexivity).
  assert (Hpos : (0 < buffered wrapped + byteLength (UpText "test"))%N)
    by (vm_compute; reflexivity).
  exact (proj1 (proj2 (aborted_wait_rejects_with_abort_reason wrapped (UpText "test")
                         0 4 (VString "stop") Hinv eq_refl eq_refl Hpos))).
Defined.

(** X17: the signal given to [open] governs the establishment only: once the
    promise is fulfilled its 'abort' listener is gone, and aborting the signal
    afterwards neither closes the resource nor touches the transport. *)
Theorem open_signal_governs_opening_only (sigs : nat -> AbortSignal) (url : Url)
    (protocols : list string) (id : nat) (evs : list Event) (r : Value) :
  let w := run evs (exec (open url protocols (Some id)) (empty_world sigs)) in
  p_state (opening w) = Fulfilled ->
  abortListeners w = []
  /\ this (step (Abort id r) w) = this w
  /\ closed (step (Abort id r) w) = closed w
  /\ opening (step (Abort id r) w) = opening w
  /\ ready_state (step (Abort id r) w) = ready_state w
  /\ close_calls (step (Abort id r) w) = close_calls w.
Proof.
  intros w Hp.
  pose proof (opened_resource_inv sigs url protocols (Some id) evs Hp) as Hinv.
  fold w in Hinv. clearbody w.
  destruct Hinv; cbn [step]; rewrite ?abort_open_resource, ?abort_closed_resource;
    destruct (aborted (sigs0 id)); now repeat split.
Qed.

Lemma open_signal_governs_opening_only_witness :
  closed (step (Abort 0 (VString "late"))
            (run [TransportOpen] (exec (open chat [] (Some 0)) (empty_world quiet))))
  = closed (run [TransportOpen] (exec (open chat [] (Some 0)) (empty_world quiet))).
Proof.
  assert (Hp : p_state (opening (run [TransportOpen]
                                   (exec (open chat [] (Some 0)) (empty_world quiet))))
               = Fulfilled) by (vm_compute; reflexivity).
  exact (proj1 (proj2 (proj2 (open_signal_governs_opening_only quiet chat [] 0
                                [TransportOpen] (VString "late") Hp)))).
Defined.

(** ** Wrapping a transport and closing the resource *)




